(** * pokecrypt: the 128-bit mixing hash of [hash.go]

    A shallow embedding of [hash.go] and the properties of its
    wide-integer arithmetic, block absorber, multiply-add combiner,
    orchestrator and finalizer.

    Conventions of the embedding.
    - A Go [uint64] is a [Z] in [[0, 2^64)]; every addition, multiplication
      and left shift is written with its wrap-around ([mod 2^64]), as the
      operators [+^], [*^] and [<<].
    - [Uint128] is the Go array [[2]uint64], index 0 the high limb and
      index 1 the low limb, as the comment on the type says.
    - A Go [[]byte] is a [list byte].  Slicing and indexing return [option]:
      [None] stands for the run-time panic of an out-of-range access.
    - Go's [int] is 64 bits wide; lengths and offsets of buffers that fit
      in memory never wrap, and are unbounded integers here, with Go's
      truncating [/] and [%] as [Z.quot] and [Z.rem].
    - A [for] loop is a [Fixpoint] on a bound of its number of iterations
      that keeps the loop's own condition; the bound is never reached
      (see [hash_total]). *)

From Stdlib Require Import ZArith List Lia Bool.
From Stdlib Require Import Strings.Byte.
Import ListNotations.

Local Open Scope Z_scope.

(** ** 64-bit words *)

Module U64.

Definition modulus : Z := 2 ^ 64.

Definition wrap (x : Z) : Z := x mod modulus.

Definition add (a b : Z) : Z := wrap (a + b).
Definition mul (a b : Z) : Z := wrap (a * b).
Definition shl (a n : Z) : Z := wrap (Z.shiftl a n).
Definition shr (a n : Z) : Z := Z.shiftr a n.
Definition or (a b : Z) : Z := Z.lor a b.
Definition and (a b : Z) : Z := Z.land a b.
(** [^x] on a [uint64]. *)
Definition not (a : Z) : Z := modulus - 1 - a.

Definition In (x : Z) : Prop := 0 <= x < modulus.

End U64.

(** Wrapping [+] and [*], and the shifts, of [uint64].  As in Go, the shifts
    bind like multiplication. *)
Infix "+^" := U64.add (at level 50, left associativity).
Infix "*^" := U64.mul (at level 40, left associativity).
Infix "<<" := U64.shl (at level 40, left associativity).
Infix ">>" := U64.shr (at level 40, left associativity).

(** ** The 128-bit value type *)

(** [type Uint128 [2]uint64 // { high, low }] *)
Record Uint128 : Type := mkU128 { high : Z; low : Z }.

(** The number a [Uint128] stands for. *)
Definition value (u : Uint128) : Z := high u * 2 ^ 64 + low u.

(** Both limbs are 64-bit words. *)
Definition wf (u : Uint128) : Prop := U64.In (high u) /\ U64.In (low u).

Definition BlockSize : nat := 128.

Definition magicTable : list Z :=
  [ 0x95C05F4D1512959E; 0xE4F3C46EEF0DCF07;
    0x6238DC228F980AD2; 0x53F3E3BC49607092;
    0x4E7BE7069078D625; 0x1016D709D1AD25FC;
    0x044E89B8AC76E045; 0xE0B684DDA364BFA1;
    0x90C533B835E89E5F; 0x3DAF462A74FA874F;
    0xFEA54965DD3EF5A0; 0x287A5D7CCB31B970;
    0xAE681046800752F8; 0x121C2D6EAF66EC6E;
    0xEE8F8CA7E090FB20; 0xCE1AE25F48FE0A52 ].

Definition magicRound : Uint128 := mkU128 0x78F32468CD48D6DE 0x14C983660183C0AE.
Definition magicFinal : Uint128 := mkU128 0xBDB31B10864F3F87 0x5B7E9E828A9B8ABD.

(** ** Wide-integer arithmetic *)

(** [func (a Uint128) Cmp(b Uint128) int]: the limb to compare is the high
    one unless the high limbs are equal. *)
Definition Cmp (a b : Uint128) : Z :=
  let sel (u : Uint128) := if high a =? high b then low u else high u in
  if sel a <? sel b then -1
  else if sel a >? sel b then 1
  else 0.

(** [func (a Uint128) Add(b Uint128) Uint128] *)
Definition Add (a b : Uint128) : Uint128 :=
  let sum0 := high a +^ high b in
  let sum1 := low a +^ low b in
  if sum1 <? low b then mkU128 (sum0 +^ 1) sum1
  else mkU128 sum0 sum1.

(** [func (a Uint128) And(b Uint128) Uint128] *)
Definition And (a b : Uint128) : Uint128 :=
  mkU128 (U64.and (high a) (high b)) (U64.and (low a) (low b)).

(** [func mul64_128(a, b uint64) Uint128]: the product is formed exactly in
    a [big.Int]; the high limb is the product shifted right by 64 and the
    low limb its low 64 bits. *)
Definition mul64_128 (a b : Z) : Uint128 :=
  let zprod := a * b in
  let zhi := Z.shiftr zprod 64 in
  mkU128 (U64.wrap zhi) (U64.wrap zprod).

(** ** Byte slices *)

(** Run-time panics are the [None] of an error monad. *)
Definition bind {A B : Type} (e : option A) (k : A -> option B) : option B :=
  match e with
  | Some x => k x
  | None => None
  end.

Notation "x <- e ;; k" := (bind e (fun x => k))
  (at level 61, e at next level, right associativity).

(** [len(s)] *)
Definition len (s : list byte) : Z := Z.of_nat (length s).

(** [s[lo:hi]]; Go panics unless [0 <= lo <= hi <= len(s)] (the capacity of
    the buffers hashed here is their length). *)
Definition slice (s : list byte) (lo hi : Z) : option (list byte) :=
  if (0 <=? lo) && (lo <=? hi) && (hi <=? len s)
  then Some (firstn (Z.to_nat (hi - lo)) (skipn (Z.to_nat lo) s))
  else None.

(** [s[lo:]] *)
Definition slice_from (s : list byte) (lo : Z) : option (list byte) :=
  slice s lo (len s).

(** [make([]byte, n)]: [n] zero bytes; a negative length panics. *)
Definition make (n : Z) : option (list byte) :=
  if n <? 0 then None else Some (repeat x00 (Z.to_nat n)).

(** [copy(dst, src)] overwrites the first [min(len(dst), len(src))] bytes of
    [dst]; the result is the new contents of [dst]. *)
Definition copy (dst src : list byte) : list byte :=
  let n := Nat.min (length dst) (length src) in
  firstn n src ++ skipn n dst.

(** [uint64(b)] for a byte [b]. *)
Definition byte_val (b : byte) : Z := Z.of_N (Byte.to_N b).

(** [binary.LittleEndian.Uint64(b)]: it touches [b[7]] first, and so panics
    on fewer than eight bytes. *)
Definition LittleEndian_Uint64 (b : list byte) : option Z :=
  match b with
  | b0 :: b1 :: b2 :: b3 :: b4 :: b5 :: b6 :: b7 :: _ =>
      Some (U64.or (U64.or (U64.or (U64.or (U64.or (U64.or (U64.or
              (byte_val b0)
              (byte_val b1 << 8))
              (byte_val b2 << 16))
              (byte_val b3 << 24))
              (byte_val b4 << 32))
              (byte_val b5 << 40))
              (byte_val b6 << 48))
              (byte_val b7 << 56))
  | _ => None
  end.

(** ** Block absorber *)

(** [0x3fffffffffffffffffffffffffffffff], written
    [Uint128{^uint64(3 << 62), ^uint64(0)}] in the source. *)
Definition u3fff : Uint128 := mkU128 (U64.not (3 << 62)) (U64.not 0).

(** The [for] loop of [hashBlock].  [fuel] bounds the number of iterations;
    [hashBlock] starts it with more than the loop can use. *)
Fixpoint hashBlock_loop (fuel : nat) (block : list byte) (offset : Z)
    (magicIdx : nat) (hash : Uint128) : option Uint128 :=
  if offset <? len block then
    match fuel with
    | O => None
    | S fuel' =>
        s1 <- slice_from block offset ;;
        a <- LittleEndian_Uint64 s1 ;;
        t1 <- nth_error magicTable magicIdx ;;
        let a := a +^ t1 in
        let magicIdx := S magicIdx in
        s2 <- slice_from block (offset + 8) ;;
        b <- LittleEndian_Uint64 s2 ;;
        t2 <- nth_error magicTable magicIdx ;;
        let b := b +^ t2 in
        let magicIdx := S magicIdx in
        hashBlock_loop fuel' block (offset + 16) magicIdx
          (Add hash (mul64_128 a b))
    end
  else Some hash.

(** [func hashBlock(block []byte) Uint128] *)
Definition hashBlock (block : list byte) : option Uint128 :=
  hash <- hashBlock_loop (length block) block 0 0%nat (mkU128 0 0) ;;
  Some (And hash u3fff).

(** ** Block combiner *)

(** [func hashMulAdd(h, m, a Uint128) Uint128] *)
Definition hashMulAdd (h m a : Uint128) : Uint128 :=
  let a0 := low a << 32 >> 32 in
  let a1 := low a >> 32 in
  let a23 := high a in
  let m0 := low m << 32 >> 32 in
  let m1 := low m >> 32 in
  let m2 := high m << 32 >> 32 in
  let m3 := high m >> 32 in
  let h0 := low h << 32 >> 32 in
  let h1 := low h >> 32 in
  let h2 := high h << 32 >> 32 in
  let h3 := high h >> 32 in

  let c0 := (h0 *^ m0) in
  let c1 := (h0 *^ m1) +^ (h1 *^ m0) in
  let c2 := (h0 *^ m2) +^ (h1 *^ m1) +^ (h2 *^ m0) in
  let c3 := (h0 *^ m3) +^ (h1 *^ m2) +^ (h2 *^ m1) +^ (h3 *^ m0) in
  let c4 := (h1 *^ m3) +^ (h2 *^ m2) +^ (h3 *^ m1) in
  let c5 := (h2 *^ m3) +^ (h3 *^ m2) in
  let c6 := (h3 *^ m3) in

  let r2 := c2 +^ (c6 << 1) +^ a23 in
  let r3 := c3 +^ (r2 >> 32) in
  let r0 := c0 +^ (c4 << 1) +^ a0 +^ (r3 >> 31) in
  let r1 := c1 +^ (c5 << 1) +^ a1 +^ (r0 >> 32) in

  mkU128
    (U64.or (r3 << 33 >> 1) (r2 << 32 >> 32) +^ (r1 >> 32))
    (U64.or (r1 << 32) (r0 << 32 >> 32)).

(** ** Orchestrator *)

(** The [for] loop of [hash] over the full blocks after the first. *)
Fixpoint hash_loop (fuel : nat) (input : list byte) (offset numBlocks : Z)
    (hash : Uint128) : option Uint128 :=
  if numBlocks >? 1 then
    match fuel with
    | O => None
    | S fuel' =>
        blk <- slice input offset (offset + Z.of_nat BlockSize) ;;
        hb <- hashBlock blk ;;
        hash_loop fuel' input (offset + Z.of_nat BlockSize) (numBlocks - 1)
          (hashMulAdd hash magicRound hb)
    end
  else Some hash.

(** Lines 31-57 of [hash]: the running accumulator before finalization,
    together with [tailLen]. *)
Definition hash_mix (input : list byte) : option (Uint128 * Z) :=
  let numBlocks := Z.quot (len input) (Z.of_nat BlockSize) in
  let tailLen := Z.rem (len input) (Z.of_nat BlockSize) in
  tail <- make (16 * Z.quot (tailLen + 15) 16) ;;
  src <- slice_from input (len input - tailLen) ;;
  let tail := copy tail src in
  hash <- (if numBlocks >? 0
           then blk <- slice input 0 (Z.of_nat BlockSize) ;; hashBlock blk
           else hashBlock tail) ;;
  let hash := Add hash magicRound in
  hash <- (if numBlocks >? 0
           then
             hash <- hash_loop (Z.to_nat numBlocks) input
                       (Z.of_nat BlockSize) numBlocks hash ;;
             if tailLen >? 0
             then hb <- hashBlock tail ;; Some (hashMulAdd hash magicRound hb)
             else Some hash
           else Some hash) ;;
  Some (hash, tailLen).

(** ** Finalizer *)

(** [0x7fffffffffffffffffffffffffffffff], written
    [Uint128{^uint64(1 << 63), ^uint64(0)}] in the source. *)
Definition u7fff : Uint128 := mkU128 (U64.not (1 << 63)) (U64.not 0).

(** Line 62: [hash = hash.Add(Uint128{uint64(tailLen * 8), 0})]. *)
Definition final_addlen (hash : Uint128) (tailLen : Z) : Uint128 :=
  Add hash (mkU128 (U64.wrap (tailLen * 8)) 0).

(** Lines 63-66: the conditional increment and the 127-bit mask. *)
Definition final_mask (hash : Uint128) : Uint128 :=
  let hash := if Cmp hash u7fff >=? 0 then Add hash (mkU128 0 1) else hash in
  And hash u7fff.

(** Lines 68-80: the two lane values [A] and [B]. *)
Definition final_lanes (hash : Uint128) : Z * Z :=
  let X := high hash +^ (low hash >> 32) in
  let X := ((X +^ (X >> 32) +^ 1) >> 32) +^ high hash in
  let Y := (X << 32) +^ low hash in
  let A := X +^ high magicFinal in
  let A := if A <? X then A +^ 0x101 else A in
  let B := Y +^ low magicFinal in
  let B := if B <? Y then B +^ 0x101 else B in
  (A, B).

(** Lines 83 and 84:
    [hash = mul64_128(hash[0], 0x101).Add(Uint128{0, hash[1]})]. *)
Definition reduce_step (hash : Uint128) : Uint128 :=
  Add (mul64_128 (high hash) 0x101) (mkU128 0 (low hash)).

(** Lines 86-89: the low limb, plus 257 when the high limb is not zero. *)
Definition final_carry (hash : Uint128) : Z :=
  let result := low hash in
  if negb (high hash =? 0) then result +^ 0x101 else result.

(** Lines 90-92: one more 257 when the result is above
    [0xFFFFFFFFFFFFFEFE]. *)
Definition final_canon (result : Z) : Z :=
  if result >? 0xFFFFFFFFFFFFFEFE then result +^ 0x101 else result.

(** Lines 82-94. *)
Definition final_reduce (A B : Z) : Z :=
  let hash := mul64_128 A B in
  let hash := reduce_step hash in
  let hash := reduce_step hash in
  final_canon (final_carry hash).

(** Lines 59-94 of [hash]. *)
Definition hash_final (hash : Uint128) (tailLen : Z) : Z :=
  let hash := final_addlen hash tailLen in
  let hash := final_mask hash in
  let '(A, B) := final_lanes hash in
  final_reduce A B.

(** [func hash(input []byte) uint64] *)
Definition hash (input : list byte) : option Z :=
  st <- hash_mix input ;;
  Some (hash_final (fst st) (snd st)).

(** ** Seeded wrappers *)

Definition hashSeed : Z := 0x61247FBF.

(** [byte(v)]: the low eight bits of [v]. *)
Definition byte_of (v : Z) : byte :=
  match Byte.of_N (Z.to_N (v mod 256)) with
  | Some b => b
  | None => x00
  end.

(** [uint32(v)]: the low 32 bits of [v]. *)
Definition uint32 (v : Z) : Z := v mod 2 ^ 32.

(** [binary.BigEndian.PutUint32(b, v)]: it touches [b[3]] first, and so
    panics on fewer than four bytes; the result is the new contents of [b]. *)
Definition BigEndian_PutUint32 (b : list byte) (v : Z) : option (list byte) :=
  match b with
  | _ :: _ :: _ :: _ :: rest =>
      Some (byte_of (v >> 24) :: byte_of (v >> 16) :: byte_of (v >> 8)
              :: byte_of v :: rest)
  | _ => None
  end.

(** [binary.BigEndian.PutUint64(b, v)]: it touches [b[7]] first. *)
Definition BigEndian_PutUint64 (b : list byte) (v : Z) : option (list byte) :=
  match b with
  | _ :: _ :: _ :: _ :: _ :: _ :: _ :: _ :: rest =>
      Some (byte_of (v >> 56) :: byte_of (v >> 48) :: byte_of (v >> 40)
              :: byte_of (v >> 32) :: byte_of (v >> 24) :: byte_of (v >> 16)
              :: byte_of (v >> 8) :: byte_of v :: rest)
  | _ => None
  end.

(** [copy(dst[lo:], src)]: the slice [dst[lo:]] shares the array of [dst],
    so the bytes copied into it are bytes of [dst]; the result is the new
    contents of [dst]. *)
Definition copy_from (dst : list byte) (lo : Z) (src : list byte)
    : option (list byte) :=
  s <- slice_from dst lo ;;
  Some (firstn (Z.to_nat lo) dst ++ copy s src).

(** [binary.BigEndian.PutUint64(b[lo:], v)], likewise through the shared
    array. *)
Definition PutUint64_from (b : list byte) (lo : Z) (v : Z)
    : option (list byte) :=
  s <- slice_from b lo ;;
  s' <- BigEndian_PutUint64 s v ;;
  Some (firstn (Z.to_nat lo) b ++ s').

(** [func Hash64Salt(buffer []byte, salt uint32) uint64] *)
Definition Hash64Salt (buffer : list byte) (salt : Z) : option Z :=
  newBuffer <- make (len buffer + 4) ;;
  newBuffer <- BigEndian_PutUint32 newBuffer salt ;;
  newBuffer <- copy_from newBuffer 4 buffer ;;
  hash newBuffer.

(** [func Hash32Salt(buffer []byte, salt uint32) uint32] *)
Definition Hash32Salt (buffer : list byte) (salt : Z) : option Z :=
  ret <- Hash64Salt buffer salt ;;
  Some (Z.lxor (uint32 ret) (uint32 (ret >> 32))).

(** [func Hash32(buffer []byte) uint32] *)
Definition Hash32 (buffer : list byte) : option Z :=
  Hash32Salt buffer hashSeed.

(** [func Hash64(buffer []byte) uint64] *)
Definition Hash64 (buffer : list byte) : option Z :=
  Hash64Salt buffer hashSeed.

(** [func Hash64Salt64(buffer []byte, salt uint64) uint64] *)
Definition Hash64Salt64 (buffer : list byte) (salt : Z) : option Z :=
  newBuffer <- make (len buffer + 8) ;;
  newBuffer <- BigEndian_PutUint64 newBuffer salt ;;
  newBuffer <- copy_from newBuffer 8 buffer ;;
  hash newBuffer.

(** [func HashRequest(authTicket, request []byte) uint64] *)
Definition HashRequest (authTicket request : list byte) : option Z :=
  seed <- Hash64 authTicket ;;
  Hash64Salt64 request seed.

(** The location wrappers take [float64] arguments and only use their bit
    patterns, [math.Float64bits]; the type and the function are parameters
    here. *)
Section Location.

Variable float64 : Type.
Variable Float64bits : float64 -> Z.

(** [func locationToBuffer(lat, lng, alt float64) []byte] *)
Definition locationToBuffer (lat lng alt : float64) : option (list byte) :=
  buffer <- make 24 ;;
  buffer <- PutUint64_from buffer 0 (Float64bits lat) ;;
  buffer <- PutUint64_from buffer 8 (Float64bits lng) ;;
  buffer <- PutUint64_from buffer 16 (Float64bits alt) ;;
  Some buffer.

(** [func HashLocation1(authTicket []byte, lat, lng, alt float64) uint32] *)
Definition HashLocation1 (authTicket : list byte) (lat lng alt : float64)
    : option Z :=
  seed <- Hash32 authTicket ;;
  payload <- locationToBuffer lat lng alt ;;
  Hash32Salt payload seed.

(** [func HashLocation2(lat, lng, alt float64) uint32] *)
Definition HashLocation2 (lat lng alt : float64) : option Z :=
  payload <- locationToBuffer lat lng alt ;;
  Hash32 payload.

End Location.


(** * The code, as the specification words it *)

(** ** Numbers and limbs *)

(** The 128-bit value with the given number, limb by limb. *)
Definition of_value (v : Z) : Uint128 :=
  mkU128 (U64.wrap (v / 2 ^ 64)) (U64.wrap v).

(** The number eight bytes stand for, least significant first. *)
Definition le64 (bs : list byte) : Z :=
  fold_right (fun b acc => byte_val b + 256 * acc) 0 (firstn 8 bs).

(** ** The absorber, in numbers *)

(** Entry [i] of the table of sixteen constants. *)
Definition magic (i : nat) : Z := nth i magicTable 0.

(** The [k]-th 16-byte lane of a block. *)
Definition lane (block : list byte) (k : nat) : list byte :=
  firstn 16 (skipn (16 * k) block).

(** The exact product of the two words of lane [k], each with its table
    entry added modulo 2^64. *)
Definition lane_product (block : list byte) (k : nat) : Z :=
  ((le64 (lane block k) + magic (2 * k)) mod 2 ^ 64)
  * ((le64 (skipn 8 (lane block k)) + magic (2 * k + 1)) mod 2 ^ 64).

Definition absorb_step (block : list byte) (sum : Z) (k : nat) : Z :=
  (sum + lane_product block k) mod 2 ^ 128.

(** The running sum over all lanes, from zero. *)
Definition absorb_sum (block : list byte) : Z :=
  fold_left (absorb_step block) (seq 0 (length block / 16)) 0.

(** The sum ANDed with [0x3fffffffffffffffffffffffffffffff]. *)
Definition absorb_value (block : list byte) : Z :=
  Z.land (absorb_sum block) 0x3fffffffffffffffffffffffffffffff.

Definition absorb (block : list byte) : Uint128 :=
  of_value (absorb_value block).

(** ** The combiner, in numbers *)

(** 32-bit limb [i] of a 128-bit value, limb 0 the least significant. *)
Definition limb (u : Uint128) (i : nat) : Z :=
  (value u / 2 ^ (32 * Z.of_nat i)) mod 2 ^ 32.

(** The exact diagonal sum: [h_i * m_j] summed over [i + j = k]. *)
Definition diagonal_sum (h m : Uint128) (k : nat) : Z :=
  fold_right Z.add 0
    (map (fun i => limb h i * limb m (k - i))
       (filter (fun i => (i <=? k)%nat && (k - i <=? 3)%nat) (seq 0 4))).

(** Diagonal sum [c_k] as the code holds it, in a 64-bit word. *)
Definition diagonal (h m : Uint128) (k : nat) : Z :=
  U64.wrap (diagonal_sum h m k).

(** No 64-bit sum of the carry chain wraps: the exact values of [r2], [r3],
    [r0] and [r1] fit in 64 bits (and with them every [c_k] and every
    doubling they contain). *)
Definition carries_fit (h m a : Uint128) : Prop :=
  let c := diagonal_sum h m in
  let r2 := c 2%nat + 2 * c 6%nat + high a in
  let r3 := c 3%nat + r2 / 2 ^ 32 in
  let r0 := c 0%nat + 2 * c 4%nat + limb a 0 + r3 / 2 ^ 31 in
  let r1 := c 1%nat + 2 * c 5%nat + limb a 1 + r0 / 2 ^ 32 in
  r2 < 2 ^ 64 /\ r3 < 2 ^ 64 /\ r0 < 2 ^ 64 /\ r1 < 2 ^ 64.

(** The carry chain and the reassembly, with every shift read as the
    division, remainder or multiplication it performs on a 64-bit word. *)
Definition combine_spec (h m a : Uint128) : Uint128 :=
  let c := diagonal h m in
  let r2 := (c 2%nat + U64.wrap (2 * c 6%nat) + high a) mod 2 ^ 64 in
  let r3 := (c 3%nat + r2 / 2 ^ 32) mod 2 ^ 64 in
  let r0 :=
    (c 0%nat + U64.wrap (2 * c 4%nat) + limb a 0 + r3 / 2 ^ 31) mod 2 ^ 64 in
  let r1 :=
    (c 1%nat + U64.wrap (2 * c 5%nat) + limb a 1 + r0 / 2 ^ 32) mod 2 ^ 64 in
  mkU128
    (((r3 mod 2 ^ 31) * 2 ^ 32 + r2 mod 2 ^ 32 + r1 / 2 ^ 32) mod 2 ^ 64)
    ((r1 mod 2 ^ 32) * 2 ^ 32 + r0 mod 2 ^ 32).

(** ** The orchestrator *)

(** Full block [i] of the input. *)
Definition block_at (input : list byte) (i : nat) : list byte :=
  firstn 128 (skipn (128 * i) input).

Definition ceil_div (a b : nat) : nat :=
  if (a mod b =? 0)%nat then (a / b)%nat else (a / b + 1)%nat.

(** The last [tailLen] bytes of the input, then zeroes up to a length of
    [16 * ceil(tailLen / 16)]. *)
Definition paddedTail (input : list byte) : list byte :=
  let n := length input in
  let tailLen := (n mod 128)%nat in
  skipn (n - tailLen) input
    ++ repeat x00 (16 * ceil_div tailLen 16 - tailLen).

(** One fold step: combine the accumulator with the next absorbed block. *)
Definition combine_block (input : list byte) (h : Uint128) (i : nat) : Uint128 :=
  hashMulAdd h magicRound (absorb (block_at input i)).

(** The accumulator after the full blocks [0 .. numBlocks-1] only. *)
Definition mix_blocks (input : list byte) : Uint128 :=
  let numBlocks := (length input / 128)%nat in
  fold_left (combine_block input) (seq 1 (numBlocks - 1))
    (Add (absorb (block_at input 0)) magicRound).

Definition mix_spec (input : list byte) : Uint128 :=
  let n := length input in
  let numBlocks := (n / 128)%nat in
  let tailLen := (n mod 128)%nat in
  if (0 <? numBlocks)%nat then
    if (0 <? tailLen)%nat
    then hashMulAdd (mix_blocks input) magicRound (absorb (paddedTail input))
    else mix_blocks input
  else Add (absorb (paddedTail input)) magicRound.

(** ** The finalizer *)

(** The working modulus of the digest. *)
Definition digest_modulus : Z := 2 ^ 64 - 257.

(** The divisor of the lane fold. *)
Definition lane_divisor : Z := 2 ^ 64 - 2 ^ 32.

(** [x + k] brought back into 64 bits: a sum that passes 2^64 loses 2^64
    and gains 257. *)
Definition add_257 (x k : Z) : Z :=
  if x + k <? 2 ^ 64 then x + k else x + k - 2 ^ 64 + 257.

(** ** The wrappers *)

(** The number a byte string stands for, most significant byte first. *)
Definition be_value (p : list byte) : Z :=
  fold_left (fun acc b => acc * 256 + byte_val b) p 0.

(** The [n] big-endian bytes of [v]. *)
Definition be_bytes (n : nat) (v : Z) : list byte :=
  map (fun i => byte_of (v / 2 ^ (8 * Z.of_nat (n - 1 - i)))) (seq 0 n).

(** * Properties *)

(** ** Words and limbs *)

Ltac unfold_u64 :=
  unfold U64.add, U64.mul, U64.shl, U64.shr, U64.or, U64.and, U64.not,
    U64.wrap, U64.In, U64.modulus in *.

Ltac euclid := Z.to_euclidean_division_equations; lia.

Lemma wrap_In (x : Z) : U64.In (U64.wrap x).
Proof. unfold_u64. apply Z.mod_pos_bound. reflexivity. Qed.

Lemma wrap_small (x : Z) : U64.In x -> U64.wrap x = x.
Proof. unfold_u64. intros H. apply Z.mod_small. exact H. Qed.

Lemma add_In (a b : Z) : U64.In (a +^ b).
Proof. apply wrap_In. Qed.

Lemma shl_In (a n : Z) : U64.In (a << n).
Proof. apply wrap_In. Qed.

Lemma shr_In (a n : Z) : U64.In a -> 0 <= n -> U64.In (a >> n).
Proof.
  unfold_u64. intros [H0 H1] Hn. rewrite Z.shiftr_div_pow2 by assumption.
  assert (0 < 2 ^ n) by (apply Z.pow_pos_nonneg; lia).
  split.
  - apply Z.div_pos; assumption.
  - apply Z.le_lt_trans with (m := a); [ | assumption ].
    apply Z.div_le_upper_bound; nia.
Qed.

Lemma wf_value_range (u : Uint128) : wf u -> 0 <= value u < 2 ^ 128.
Proof.
  unfold wf, value. unfold_u64. intros [Hh Hl].
  change (2 ^ 128) with (2 ^ 64 * 2 ^ 64). nia.
Qed.

(** ** [Add] *)

Lemma Add_wf (a b : Uint128) : wf (Add a b).
Proof.
  unfold Add. destruct (_ <? _); split; simpl; apply add_In.
Qed.

Lemma Add_carry_iff (a b : Uint128) :
  wf a -> wf b ->
  (low a +^ low b < low b <-> 2 ^ 64 <= low a + low b).
Proof.
  unfold wf. unfold_u64. intros [_ Ha] [_ Hb].
  change (2 ^ 64) with 18446744073709551616 in *. split; intros H; euclid.
Qed.

Lemma Add_value (a b : Uint128) :
  wf a -> wf b -> value (Add a b) = (value a + value b) mod 2 ^ 128.
Proof.
  intros Ha Hb. pose proof (Add_carry_iff a b Ha Hb) as Hc.
  revert Hc. unfold Add, wf, value in *. unfold_u64.
  destruct Ha as [Ha0 Ha1], Hb as [Hb0 Hb1].
  change (2 ^ 128) with 340282366920938463463374607431768211456.
  change (2 ^ 64) with 18446744073709551616 in *.
  destruct (Z.ltb_spec ((low a + low b) mod 18446744073709551616) (low b));
    simpl; intros Hc; euclid.
Qed.

(** ** Bitwise operations as arithmetic *)

Lemma land_shiftl_disjoint (x y k : Z) :
  0 <= k -> 0 <= x < 2 ^ k -> Z.land x (Z.shiftl y k) = 0.
Proof.
  intros Hk Hx. apply Z.bits_inj'. intros n Hn.
  rewrite Z.land_spec, Z.bits_0.
  destruct (Z.lt_ge_cases n k) as [Hlt | Hge].
  - rewrite Z.shiftl_spec_low by assumption. apply andb_false_r.
  - rewrite <- (Z.mod_small x (2 ^ k)) by assumption.
    rewrite Z.mod_pow2_bits_high by lia. reflexivity.
Qed.

Lemma lor_shiftl_add (x y k : Z) :
  0 <= k -> 0 <= x < 2 ^ k -> Z.lor x (Z.shiftl y k) = x + y * 2 ^ k.
Proof.
  intros Hk Hx. pose proof (land_shiftl_disjoint x y k Hk Hx) as H.
  rewrite <- Z.lxor_lor by assumption.
  rewrite <- Z.add_nocarry_lxor by assumption.
  rewrite Z.shiftl_mul_pow2 by assumption. reflexivity.
Qed.

Lemma lor_mul_add (x y k : Z) :
  0 <= k -> 0 <= x < 2 ^ k -> Z.lor (y * 2 ^ k) x = y * 2 ^ k + x.
Proof.
  intros Hk Hx. rewrite Z.lor_comm, <- Z.shiftl_mul_pow2 by assumption.
  rewrite lor_shiftl_add by assumption.
  rewrite Z.shiftl_mul_pow2 by assumption. lia.
Qed.

Lemma byte_val_range (b : byte) : 0 <= byte_val b < 256.
Proof.
  unfold byte_val. pose proof (Byte.to_N_bounded b). lia.
Qed.

Lemma le64_range (bs : list byte) : 0 <= le64 bs < 2 ^ 64.
Proof.
  unfold le64.
  assert (G : forall l : list byte, (length l <= 8)%nat ->
            0 <= fold_right (fun b acc => byte_val b + 256 * acc) 0 l
              < 256 ^ Z.of_nat (length l)).
  { induction l as [ | b l IH]; intros Hl.
    - simpl. lia.
    - cbn [fold_right length] in *.
      rewrite Nat2Z.inj_succ, Z.pow_succ_r by lia.
      pose proof (byte_val_range b). specialize (IH ltac:(lia)). lia. }
  pose proof (G (firstn 8 bs)) as H.
  pose proof (length_firstn 8 bs) as L.
  specialize (H ltac:(lia)).
  assert (256 ^ Z.of_nat (length (firstn 8 bs)) <= 2 ^ 64).
  { change (2 ^ 64) with (256 ^ 8). apply Z.pow_le_mono_r; lia. }
  lia.
Qed.

Lemma LittleEndian_Uint64_le64 (bs : list byte) :
  (8 <= length bs)%nat -> LittleEndian_Uint64 bs = Some (le64 bs).
Proof.
  intros H.
  do 8 (destruct bs as [ | ? bs]; [ simpl in H; lia | ]).
  unfold LittleEndian_Uint64, le64. f_equal. cbn [firstn fold_right]. clear H.
  repeat match goal with
         | b : byte |- _ => pose proof (byte_val_range b); generalize dependent (byte_val b); clear b; intros
         end.
  unfold_u64.
  rewrite !Z.shiftl_mul_pow2 by lia.
  rewrite !(Z.mod_small (_ * 2 ^ _) (2 ^ 64)) by lia.
  rewrite <- !Z.shiftl_mul_pow2 by lia.
  rewrite (lor_shiftl_add _ _ 8) by lia.
  rewrite (lor_shiftl_add _ _ 16) by lia.
  rewrite (lor_shiftl_add _ _ 24) by lia.
  rewrite (lor_shiftl_add _ _ 32) by lia.
  rewrite (lor_shiftl_add _ _ 40) by lia.
  rewrite (lor_shiftl_add _ _ 48) by lia.
  rewrite (lor_shiftl_add _ _ 56) by lia.
  lia.
Qed.

(** ** [mul64_128] and [And] *)

Lemma mul64_128_wf (a b : Z) : wf (mul64_128 a b).
Proof. split; cbn [high low mul64_128]; apply wrap_In. Qed.

Lemma mul64_128_value (a b : Z) :
  U64.In a -> U64.In b -> value (mul64_128 a b) = a * b.
Proof.
  unfold value, mul64_128; cbn [high low]. unfold_u64. intros Ha Hb.
  rewrite Z.shiftr_div_pow2 by lia.
  assert (0 <= a * b < 2 ^ 64 * 2 ^ 64) by nia.
  generalize dependent (a * b). intros p Hp.
  change (2 ^ 64) with 18446744073709551616 in *. euclid.
Qed.

Lemma of_value_value (u : Uint128) : wf u -> of_value (value u) = u.
Proof.
  destruct u as [h l]. unfold wf, of_value, value; cbn [high low]. unfold_u64.
  intros [Hh Hl]. change (2 ^ 64) with 18446744073709551616 in *.
  f_equal; euclid.
Qed.

Lemma of_value_wf (v : Z) : wf (of_value v).
Proof. split; cbn [high low of_value]; apply wrap_In. Qed.

Lemma value_of_value (v : Z) : 0 <= v < 2 ^ 128 -> value (of_value v) = v.
Proof.
  unfold of_value, value; cbn [high low]. unfold_u64.
  change (2 ^ 128) with 340282366920938463463374607431768211456.
  change (2 ^ 64) with 18446744073709551616 in *. intros H. euclid.
Qed.

Lemma And_u3fff_value (h : Uint128) :
  wf h -> value (And h u3fff) = Z.land (value h) (Z.ones 126).
Proof.
  unfold wf, And, value, u3fff; cbn [high low]. unfold_u64. intros [Hh Hl].
  change (2 ^ 64 - 1 - (Z.shiftl 3 62) mod 2 ^ 64) with (Z.ones 62).
  change (2 ^ 64 - 1 - 0) with (Z.ones 64).
  rewrite !Z.land_ones by lia. change (2 ^ 126) with (2 ^ 62 * 2 ^ 64).
  change (2 ^ 64) with 18446744073709551616 in *.
  change (2 ^ 62) with 4611686018427387904 in *. euclid.
Qed.

Lemma And_u3fff_wf (h : Uint128) : wf (And h u3fff).
Proof.
  unfold wf, And, u3fff; cbn [high low]. unfold_u64.
  change (2 ^ 64 - 1 - (Z.shiftl 3 62) mod 2 ^ 64) with (Z.ones 62).
  change (2 ^ 64 - 1 - 0) with (Z.ones 64).
  rewrite !Z.land_ones by lia.
  pose proof (Z.mod_pos_bound (high h) (2 ^ 62) eq_refl).
  pose proof (Z.mod_pos_bound (low h) (2 ^ 64) eq_refl).
  change (2 ^ 64) with 18446744073709551616 in *.
  change (2 ^ 62) with 4611686018427387904 in *. lia.
Qed.

Lemma And_u3fff_high (h : Uint128) : high (And h u3fff) = high h mod 2 ^ 62.
Proof.
  unfold And, u3fff; cbn [high low]. unfold_u64.
  change (2 ^ 64 - 1 - (Z.shiftl 3 62) mod 2 ^ 64) with (Z.ones 62).
  apply Z.land_ones. lia.
Qed.

(** ** Slices *)

Lemma slice_ok (s : list byte) (lo hi : Z) :
  0 <= lo <= hi -> hi <= len s ->
  slice s lo hi = Some (firstn (Z.to_nat (hi - lo)) (skipn (Z.to_nat lo) s)).
Proof.
  intros H1 H2. unfold slice.
  destruct (Z.leb_spec 0 lo); [ | lia ].
  destruct (Z.leb_spec lo hi); [ | lia ].
  destruct (Z.leb_spec hi (len s)); [ | lia ].
  reflexivity.
Qed.

Lemma slice_from_ok (s : list byte) (lo : Z) :
  0 <= lo <= len s -> slice_from s lo = Some (skipn (Z.to_nat lo) s).
Proof.
  intros H. unfold slice_from. rewrite slice_ok by lia. f_equal.
  apply firstn_all2. rewrite length_skipn. unfold len. lia.
Qed.

(** ** The absorber, in numbers *)

Lemma le64_firstn (n : nat) (bs : list byte) :
  (8 <= n)%nat -> le64 (firstn n bs) = le64 bs.
Proof.
  intros H. unfold le64. rewrite firstn_firstn.
  replace (Nat.min 8 n) with 8%nat by lia. reflexivity.
Qed.

Lemma le64_skipn_lane (bs : list byte) :
  le64 (skipn 8 (firstn 16 bs)) = le64 (skipn 8 bs).
Proof.
  unfold le64. rewrite !(firstn_skipn_comm 8 8).
  change (8 + 8)%nat with 16%nat. rewrite firstn_firstn. reflexivity.
Qed.

Lemma magic_nth_error (i : nat) :
  (i < 16)%nat -> nth_error magicTable i = Some (magic i).
Proof. intros H. apply nth_error_nth'. exact H. Qed.

Lemma hashBlock_loop_spec (block : list byte) (n : nat) :
  length block = (16 * n)%nat -> (n <= 8)%nat ->
  forall (d k fuel : nat) (h : Uint128),
    (k + d = n)%nat -> (d <= fuel)%nat -> wf h ->
    exists r, hashBlock_loop fuel block (16 * Z.of_nat k) (2 * k) h = Some r
              /\ wf r
              /\ value r = fold_left (absorb_step block) (seq k d) (value h).
Proof.
  intros Hlen Hn. induction d as [ | d IH]; intros k fuel h Hk Hf Hh.
  - exists h. split; [ | split; [ assumption | reflexivity ] ].
    destruct fuel; cbn [hashBlock_loop]; unfold len; rewrite Hlen;
      destruct (Z.ltb_spec (16 * Z.of_nat k) (Z.of_nat (16 * n)));
      try reflexivity; lia.
  - destruct fuel as [ | fuel]; [ lia | ].
    cbn [hashBlock_loop]. unfold len at 1. rewrite Hlen.
    destruct (Z.ltb_spec (16 * Z.of_nat k) (Z.of_nat (16 * n))); [ | lia ].
    rewrite slice_from_ok by (unfold len; lia). cbn [bind].
    rewrite LittleEndian_Uint64_le64 by (rewrite length_skipn; lia).
    cbn [bind]. rewrite magic_nth_error by lia. cbn [bind].
    rewrite slice_from_ok by (unfold len; lia). cbn [bind].
    rewrite LittleEndian_Uint64_le64 by (rewrite length_skipn; lia).
    cbn [bind]. rewrite magic_nth_error by lia. cbn [bind].
    replace (16 * Z.of_nat k + 16) with (16 * Z.of_nat (S k)) by lia.
    replace (S (S (2 * k))) with (2 * S k)%nat by lia.
    match goal with
    | |- context [hashBlock_loop fuel block _ _ ?h'] =>
        destruct (IH (S k) fuel h') as (r & Hr & Hwf & Hv);
          [ lia | lia | apply Add_wf | ]
    end.
    exists r. split; [ exact Hr | split; [ exact Hwf | ] ].
    rewrite Hv. cbn [seq fold_left]. f_equal.
    rewrite Add_value by (assumption || apply mul64_128_wf).
    rewrite mul64_128_value by apply add_In.
    unfold absorb_step, lane_product, lane. unfold U64.add, U64.wrap, U64.modulus.
    replace (Z.to_nat (16 * Z.of_nat k)) with (16 * k)%nat by lia.
    replace (Z.to_nat (16 * Z.of_nat k + 8)) with (8 + 16 * k)%nat by lia.
    rewrite le64_firstn, le64_skipn_lane, skipn_skipn by lia.
    replace (S (2 * k)) with (2 * k + 1)%nat by lia.
    reflexivity.
Qed.

Lemma hashBlock_absorb (block : list byte) :
  (length block mod 16 = 0)%nat -> (length block <= 128)%nat ->
  hashBlock block = Some (absorb block).
Proof.
  intros Hm Hl.
  pose proof (Nat.div_mod_eq (length block) 16) as Hd. rewrite Hm in Hd.
  set (n := (length block / 16)%nat) in *.
  assert (Hz : wf (mkU128 0 0)) by (repeat split; cbn [high low]; lia).
  destruct (hashBlock_loop_spec block n ltac:(lia) ltac:(lia) n 0%nat
              (length block) (mkU128 0 0) ltac:(lia) ltac:(lia) Hz)
    as (r & Hr & Hwf & Hv).
  unfold hashBlock. change (16 * Z.of_nat 0) with 0 in Hr.
  change (2 * 0)%nat with 0%nat in Hr. rewrite Hr. cbn [bind]. f_equal.
  rewrite <- (of_value_value (And r u3fff)) by apply And_u3fff_wf.
  unfold absorb, absorb_value, absorb_sum. fold n.
  rewrite And_u3fff_value, Hv by assumption. reflexivity.
Qed.

Lemma hashBlock_bound (block : list byte) (r : Uint128) :
  hashBlock block = Some r -> wf r /\ high r < 2 ^ 62.
Proof.
  unfold hashBlock. destruct (hashBlock_loop _ _ _ _ _) as [h | ];
    cbn [bind]; intros E; inversion E; subst; clear E.
  split; [ apply And_u3fff_wf | ].
  rewrite And_u3fff_high. apply Z.mod_pos_bound. reflexivity.
Qed.

(** ** The orchestrator *)

Lemma length_block_at (input : list byte) (i : nat) :
  (128 * (i + 1) <= length input)%nat -> length (block_at input i) = 128%nat.
Proof.
  intros H. unfold block_at. rewrite length_firstn, length_skipn. lia.
Qed.

Lemma hash_loop_spec (input : list byte) :
  forall (d j fuel : nat) (h : Uint128),
    (128 * (j + d) <= length input)%nat -> (d <= fuel)%nat ->
    hash_loop fuel input (128 * Z.of_nat j) (Z.of_nat d + 1) h
    = Some (fold_left (combine_block input) (seq j d) h).
Proof.
  induction d as [ | d IH]; intros j fuel h Hlen Hf.
  - destruct fuel; reflexivity.
  - destruct fuel as [ | fuel]; [ lia | ].
    cbn [hash_loop].
    destruct (Z.gtb_spec (Z.of_nat (S d) + 1) 1); [ | lia ].
    change (Z.of_nat BlockSize) with 128.
    rewrite slice_ok by (unfold len; lia). cbn [bind].
    replace (Z.to_nat (128 * Z.of_nat j + 128 - 128 * Z.of_nat j))
      with 128%nat by lia.
    replace (Z.to_nat (128 * Z.of_nat j)) with (128 * j)%nat by lia.
    fold (block_at input j).
    rewrite hashBlock_absorb
      by (rewrite length_block_at by lia; (reflexivity || lia)).
    cbn [bind].
    replace (128 * Z.of_nat j + 128) with (128 * Z.of_nat (S j)) by lia.
    replace (Z.of_nat (S d) + 1 - 1) with (Z.of_nat d + 1) by lia.
    rewrite IH by lia. reflexivity.
Qed.

Lemma ceil_div_16 (t : nat) :
  Z.to_nat (16 * Z.quot (Z.of_nat t + 15) 16) = (16 * ceil_div t 16)%nat.
Proof.
  rewrite Z.quot_div_nonneg by lia. unfold ceil_div.
  destruct (Nat.eqb_spec (t mod 16) 0) as [E | E];
    pose proof (Nat.div_mod_eq t 16);
    pose proof (Nat.mod_upper_bound t 16 ltac:(lia));
    apply Nat2Z.inj; rewrite Z2Nat.id by euclid;
    rewrite Nat2Z.inj_mul; f_equal.
  - rewrite Nat2Z.inj_div. change (Z.of_nat 16) with 16. euclid.
  - rewrite Nat2Z.inj_add, Nat2Z.inj_div. change (Z.of_nat 16) with 16.
    change (Z.of_nat 1) with 1.
    assert (Z.of_nat t mod 16 <> 0).
    { change 16 with (Z.of_nat 16). rewrite <- Nat2Z.inj_mod. lia. }
    euclid.
Qed.

Lemma ceil_div_16_bounds (t : nat) :
  (t <= 16 * ceil_div t 16 < t + 16)%nat.
Proof.
  unfold ceil_div. pose proof (Nat.div_mod_eq t 16).
  pose proof (Nat.mod_upper_bound t 16 ltac:(lia)).
  destruct (Nat.eqb_spec (t mod 16) 0); lia.
Qed.

Lemma copy_make (p : nat) (src : list byte) :
  (length src <= p)%nat ->
  copy (repeat x00 p) src = src ++ repeat x00 (p - length src).
Proof.
  intros H. unfold copy. rewrite repeat_length.
  replace (Nat.min p (length src)) with (length src) by lia.
  rewrite firstn_all. f_equal.
  replace p with (length src + (p - length src))%nat at 1 by lia.
  rewrite repeat_app, skipn_app, repeat_length, Nat.sub_diag.
  rewrite skipn_all2 by (rewrite repeat_length; lia). reflexivity.
Qed.

Lemma length_paddedTail (input : list byte) :
  length (paddedTail input) = (16 * ceil_div (length input mod 128) 16)%nat.
Proof.
  unfold paddedTail. rewrite length_app, length_skipn, repeat_length.
  pose proof (ceil_div_16_bounds (length input mod 128)).
  pose proof (Nat.Div0.mod_le (length input) 128). lia.
Qed.

Lemma hashBlock_paddedTail (input : list byte) :
  hashBlock (paddedTail input) = Some (absorb (paddedTail input)).
Proof.
  apply hashBlock_absorb; rewrite length_paddedTail.
  - rewrite Nat.mul_comm. apply Nat.Div0.mod_mul.
  - pose proof (ceil_div_16_bounds (length input mod 128)).
    pose proof (Nat.mod_upper_bound (length input) 128 ltac:(lia)).
    unfold ceil_div in *.
    destruct (Nat.eqb_spec ((length input mod 128) mod 16) 0);
      pose proof (Nat.div_mod_eq (length input mod 128) 16); lia.
Qed.

Lemma hash_mix_eq (input : list byte) :
  hash_mix input
  = Some (mix_spec input, Z.of_nat (length input mod 128)).
Proof.
  unfold hash_mix, mix_spec. change (Z.of_nat BlockSize) with 128.
  set (n := length input).
  assert (Hq : Z.quot (len input) 128 = Z.of_nat (n / 128)).
  { unfold len. fold n. rewrite Z.quot_div_nonneg by lia.
    rewrite Nat2Z.inj_div. reflexivity. }
  assert (Hr : Z.rem (len input) 128 = Z.of_nat (n mod 128)).
  { unfold len. fold n. rewrite Z.rem_mod_nonneg by lia.
    rewrite Nat2Z.inj_mod. reflexivity. }
  rewrite Hq, Hr. clear Hq Hr.
  pose proof (Nat.div_mod_eq n 128) as Hn.
  pose proof (Nat.mod_upper_bound n 128 ltac:(lia)) as Ht.
  pose proof (ceil_div_16_bounds (n mod 128)) as Hc.
  unfold make.
  destruct (Z.ltb_spec (16 * Z.quot (Z.of_nat (n mod 128) + 15) 16) 0) as [H | _].
  { rewrite Z.quot_div_nonneg in H by lia. exfalso. euclid. }
  cbn [bind]. rewrite ceil_div_16.
  rewrite slice_from_ok by (unfold len; fold n; lia). cbn [bind].
  replace (Z.to_nat (len input - Z.of_nat (n mod 128)))
    with (n - n mod 128)%nat by (unfold len; fold n; lia).
  rewrite copy_make by (rewrite length_skipn; fold n; lia).
  rewrite length_skipn. fold n.
  replace (n - (n - n mod 128))%nat with (n mod 128)%nat by lia.
  change (skipn (n - n mod 128) input
            ++ repeat x00 (16 * ceil_div (n mod 128) 16 - n mod 128))
    with (paddedTail input).
  rewrite hashBlock_paddedTail.
  destruct (Nat.ltb_spec 0 (n / 128)) as [Hb | Hb].
  - destruct (Z.gtb_spec (Z.of_nat (n / 128)) 0); [ | lia ].
    rewrite slice_ok by (unfold len; fold n; lia). cbn [bind].
    change (firstn (Z.to_nat (128 - 0)) (skipn (Z.to_nat 0) input))
      with (block_at input 0).
    rewrite hashBlock_absorb
      by (rewrite length_block_at by (fold n; lia); (reflexivity || lia)).
    cbn [bind].
    match goal with
    | |- context [hash_loop ?f input 128 _ ?h] =>
        pose proof (hash_loop_spec input (n / 128 - 1) 1 f h
                      ltac:(fold n; lia) ltac:(lia)) as HL
    end.
    change (128 * Z.of_nat 1) with 128 in HL.
    replace (Z.of_nat (n / 128 - 1) + 1) with (Z.of_nat (n / 128)) in HL by lia.
    rewrite HL. cbn [bind].
    change (fold_left (combine_block input) (seq 1 (n / 128 - 1))
              (Add (absorb (block_at input 0)) magicRound))
      with (mix_blocks input).
    destruct (Nat.ltb_spec 0 (n mod 128));
      destruct (Z.gtb_spec (Z.of_nat (n mod 128)) 0); try lia; reflexivity.
  - destruct (Z.gtb_spec (Z.of_nat (n / 128)) 0); [ lia | ].
    reflexivity.
Qed.

(** ** Well-formedness of the running accumulator *)

Lemma hashMulAdd_wf (h m a : Uint128) : wf (hashMulAdd h m a).
Proof.
  unfold hashMulAdd. split; cbn [high low].
  - apply add_In.
  - unfold U64.or.
    match goal with |- U64.In (Z.lor ?x ?y) =>
      assert (Hx : U64.In x) by apply shl_In;
      assert (Hy : U64.In y) by (apply shr_In; [ apply shl_In | lia ]);
      generalize dependent x; generalize dependent y
    end.
    intros y Hy x Hx. unfold U64.In, U64.modulus in *.
    rewrite <- (Z.land_ones_low x 64), <- (Z.land_ones_low y 64).
    + rewrite <- Z.land_lor_distr_l, Z.land_ones by lia.
      apply Z.mod_pos_bound. reflexivity.
    + lia.
    + destruct (Z.eq_dec y 0) as [-> | ]; [ reflexivity | ].
      apply Z.log2_lt_pow2; lia.
    + lia.
    + destruct (Z.eq_dec x 0) as [-> | ]; [ reflexivity | ].
      apply Z.log2_lt_pow2; lia.
Qed.

Lemma absorb_wf (block : list byte) : wf (absorb block).
Proof. apply of_value_wf. Qed.

Lemma mix_spec_wf (input : list byte) : wf (mix_spec input).
Proof.
  unfold mix_spec.
  assert (wf (mix_blocks input)).
  { unfold mix_blocks. generalize (seq 1 (length input / 128 - 1)).
    intros l.
    assert (G : forall h, wf h -> wf (fold_left (combine_block input) l h)).
    { induction l as [ | i l IH]; intros h Hh; [ exact Hh | ].
      cbn [fold_left]. apply IH. apply hashMulAdd_wf. }
    apply G. apply Add_wf. }
  destruct (0 <? _)%nat; [ destruct (0 <? _)%nat | ];
    auto using hashMulAdd_wf, Add_wf.
Qed.

(** ** The combiner, in numbers *)

Lemma shr_div (x n : Z) : 0 <= n -> x >> n = x / 2 ^ n.
Proof. intros H. unfold U64.shr. apply Z.shiftr_div_pow2. exact H. Qed.

Lemma shl_mul (x n : Z) : 0 <= n -> x << n = (x * 2 ^ n) mod 2 ^ 64.
Proof.
  intros H. unfold U64.shl, U64.wrap, U64.modulus.
  rewrite Z.shiftl_mul_pow2 by exact H. reflexivity.
Qed.

Lemma lo32_mod (x : Z) : x << 32 >> 32 = x mod 2 ^ 32.
Proof.
  rewrite shr_div, shl_mul by lia.
  change (2 ^ 64) with 18446744073709551616.
  change (2 ^ 32) with 4294967296. euclid.
Qed.

Lemma limb_low0 (u : Uint128) : wf u -> low u << 32 >> 32 = limb u 0.
Proof.
  intros [Hh Hl]. rewrite lo32_mod. unfold limb, value. unfold_u64.
  change (2 ^ (32 * Z.of_nat 0)) with 1. rewrite Z.div_1_r.
  change (2 ^ 64) with 18446744073709551616 in *.
  change (2 ^ 32) with 4294967296. euclid.
Qed.

Lemma limb_low1 (u : Uint128) : wf u -> low u >> 32 = limb u 1.
Proof.
  intros [Hh Hl]. rewrite shr_div by lia. unfold limb, value. unfold_u64.
  change (2 ^ (32 * Z.of_nat 1)) with (2 ^ 32).
  change (2 ^ 64) with 18446744073709551616 in *.
  change (2 ^ 32) with 4294967296. euclid.
Qed.

Lemma limb_high2 (u : Uint128) : wf u -> high u << 32 >> 32 = limb u 2.
Proof.
  intros [Hh Hl]. rewrite lo32_mod. unfold limb, value. unfold_u64.
  change (2 ^ (32 * Z.of_nat 2)) with (2 ^ 64).
  change (2 ^ 64) with 18446744073709551616 in *.
  change (2 ^ 32) with 4294967296. euclid.
Qed.

Lemma limb_high3 (u : Uint128) : wf u -> high u >> 32 = limb u 3.
Proof.
  intros [Hh Hl]. rewrite shr_div by lia. unfold limb, value. unfold_u64.
  change (2 ^ (32 * Z.of_nat 3)) with (2 ^ 96).
  change (2 ^ 96) with 79228162514264337593543950336.
  change (2 ^ 64) with 18446744073709551616 in *.
  change (2 ^ 32) with 4294967296. euclid.
Qed.

Lemma limb_range (u : Uint128) (i : nat) : 0 <= limb u i < 2 ^ 32.
Proof. unfold limb. apply Z.mod_pos_bound. reflexivity. Qed.

Lemma shl33_shr1 (x : Z) : x << 33 >> 1 = (x mod 2 ^ 31) * 2 ^ 32.
Proof.
  rewrite shr_div, shl_mul by lia.
  change (2 ^ 64) with 18446744073709551616.
  change (2 ^ 33) with 8589934592. change (2 ^ 32) with 4294967296.
  change (2 ^ 31) with 2147483648. change (2 ^ 1) with 2. euclid.
Qed.

Lemma shl32 (x : Z) : x << 32 = (x mod 2 ^ 32) * 2 ^ 32.
Proof.
  rewrite shl_mul by lia.
  change (2 ^ 64) with 18446744073709551616.
  change (2 ^ 32) with 4294967296. euclid.
Qed.

Lemma shl1 (x : Z) : x << 1 = U64.wrap (2 * x).
Proof. rewrite shl_mul by lia. rewrite Z.mul_comm. reflexivity. Qed.

Lemma add_wrap_both (x y : Z) : U64.wrap x +^ U64.wrap y = U64.wrap (x + y).
Proof.
  unfold U64.add, U64.wrap. symmetry. apply Zplus_mod.
Qed.

Ltac diagonal_eq :=
  unfold diagonal, diagonal_sum;
  cbv [seq filter map fold_right Nat.leb Nat.sub andb];
  unfold U64.mul; rewrite ?add_wrap_both; f_equal; ring.

Lemma add3_mod_idemp (x y z n : Z) :
  (x mod n + y + z) mod n = (x + y + z) mod n.
Proof.
  rewrite <- (Z.add_assoc (x mod n)), <- (Z.add_assoc x).
  apply Zplus_mod_idemp_l.
Qed.

Ltac subst_limbs :=
  repeat match goal with x := limb _ _ |- _ => subst x end.

Lemma hashMulAdd_arith (h m a : Uint128) :
  wf h -> wf m -> wf a -> hashMulAdd h m a = combine_spec h m a.
Proof.
  intros Hh Hm Ha. unfold hashMulAdd, combine_spec. cbv zeta.
  rewrite !limb_low0, !limb_low1, !limb_high2, !limb_high3 by assumption.
  set (h0 := limb h 0). set (h1 := limb h 1).
  set (h2 := limb h 2). set (h3 := limb h 3).
  set (m0 := limb m 0). set (m1 := limb m 1).
  set (m2 := limb m 2). set (m3 := limb m 3).
  assert (E0 : h0 *^ m0 = diagonal h m 0) by (subst_limbs; diagonal_eq).
  assert (E1 : (h0 *^ m1) +^ (h1 *^ m0) = diagonal h m 1)
    by (subst_limbs; diagonal_eq).
  assert (E2 : (h0 *^ m2) +^ (h1 *^ m1) +^ (h2 *^ m0) = diagonal h m 2)
    by (subst_limbs; diagonal_eq).
  assert (E3 : (h0 *^ m3) +^ (h1 *^ m2) +^ (h2 *^ m1) +^ (h3 *^ m0)
               = diagonal h m 3) by (subst_limbs; diagonal_eq).
  assert (E4 : (h1 *^ m3) +^ (h2 *^ m2) +^ (h3 *^ m1) = diagonal h m 4)
    by (subst_limbs; diagonal_eq).
  assert (E5 : (h2 *^ m3) +^ (h3 *^ m2) = diagonal h m 5)
    by (subst_limbs; diagonal_eq).
  assert (E6 : h3 *^ m3 = diagonal h m 6) by (subst_limbs; diagonal_eq).
  rewrite E0, E1, E2, E3, E4, E5, E6. clear E0 E1 E2 E3 E4 E5 E6.
  generalize (diagonal h m 0) (diagonal h m 1) (diagonal h m 2)
    (diagonal h m 3) (diagonal h m 4) (diagonal h m 5) (diagonal h m 6).
  intros c0 c1 c2 c3 c4 c5 c6.
  rewrite !shl33_shr1, !lo32_mod, !shl32, !shl1.
  rewrite !shr_div by lia.
  unfold U64.or.
  rewrite !lor_mul_add by (try apply Z.mod_pos_bound; lia).
  unfold U64.add, U64.wrap, U64.modulus.
  rewrite !Zplus_mod_idemp_l, !add3_mod_idemp. reflexivity.
Qed.

(** ** The combiner modulo 2^127 - 1 *)

Lemma diagonal_sum_nonneg (h m : Uint128) (k : nat) : 0 <= diagonal_sum h m k.
Proof.
  unfold diagonal_sum.
  induction (filter _ (seq 0 4)) as [ | i l IH]; cbn [map fold_right]; [ lia | ].
  pose proof (limb_range h i). pose proof (limb_range m (k - i)). nia.
Qed.

Lemma value_limbs (u : Uint128) :
  wf u ->
  value u = limb u 0 + limb u 1 * 2 ^ 32 + limb u 2 * 2 ^ 64 + limb u 3 * 2 ^ 96.
Proof.
  intros Hu.
  rewrite <- limb_low0, <- limb_low1, <- limb_high2, <- limb_high3 by assumption.
  rewrite !lo32_mod, !shr_div by lia. destruct Hu as [Hh Hl].
  unfold value. change (2 ^ 96) with 79228162514264337593543950336.
  change (2 ^ 64) with 18446744073709551616 in *.
  change (2 ^ 32) with 4294967296. euclid.
Qed.

Lemma value_limbs_low (u : Uint128) :
  wf u -> value u = limb u 0 + limb u 1 * 2 ^ 32 + high u * 2 ^ 64.
Proof.
  intros Hu. rewrite <- limb_low0, <- limb_low1 by assumption.
  rewrite !lo32_mod, !shr_div by lia. destruct Hu as [Hh Hl].
  unfold value. change (2 ^ 64) with 18446744073709551616 in *.
  change (2 ^ 32) with 4294967296. euclid.
Qed.

(** The carry chain on exact numbers: when nothing wraps, the reassembled
    limbs differ from the full product-plus-addend by a multiple of
    [2^127 - 1]. *)
Lemma carry_chain_exact (c0 c1 c2 c3 c4 c5 c6 a0 a1 a23 : Z) :
  0 <= c0 -> 0 <= c1 -> 0 <= c2 -> 0 <= c3 -> 0 <= c4 -> 0 <= c5 -> 0 <= c6 ->
  0 <= a0 -> 0 <= a1 -> 0 <= a23 ->
  forall r2 r3 r0 r1 : Z,
    r2 = c2 + 2 * c6 + a23 ->
    r3 = c3 + r2 / 2 ^ 32 ->
    r0 = c0 + 2 * c4 + a0 + r3 / 2 ^ 31 ->
    r1 = c1 + 2 * c5 + a1 + r0 / 2 ^ 32 ->
    r2 < 2 ^ 64 -> r3 < 2 ^ 64 -> r0 < 2 ^ 64 -> r1 < 2 ^ 64 ->
    let hi := (r3 mod 2 ^ 31) * 2 ^ 32 + r2 mod 2 ^ 32 + r1 / 2 ^ 32 in
    let lo := (r1 mod 2 ^ 32) * 2 ^ 32 + r0 mod 2 ^ 32 in
    0 <= hi < 2 ^ 64
    /\ c0 + c1 * 2 ^ 32 + c2 * 2 ^ 64 + c3 * 2 ^ 96 + c4 * 2 ^ 128
       + c5 * 2 ^ 160 + c6 * 2 ^ 192 + a0 + a1 * 2 ^ 32 + a23 * 2 ^ 64
       = hi * 2 ^ 64 + lo
         + (2 * (c4 + c5 * 2 ^ 32 + c6 * 2 ^ 64) + r3 / 2 ^ 31) * (2 ^ 127 - 1).
Proof.
  intros P0 P1 P2 P3 P4 P5 P6 Pa0 Pa1 Pa23 r2 r3 r0 r1 E2 E3 E0 E1 F2 F3 F0 F1.
  cbv zeta.
  rewrite (Z.mod_eq r3 (2 ^ 31)), (Z.mod_eq r2 (2 ^ 32)),
    (Z.mod_eq r1 (2 ^ 32)), (Z.mod_eq r0 (2 ^ 32)) by lia.
  pose proof (Z.mod_pos_bound r3 (2 ^ 31) eq_refl) as B3.
  pose proof (Z.mod_pos_bound r2 (2 ^ 32) eq_refl) as B2.
  rewrite (Z.mod_eq r3 (2 ^ 31)) in B3 by lia.
  rewrite (Z.mod_eq r2 (2 ^ 32)) in B2 by lia.
  assert (Q1 : 0 <= r1 / 2 ^ 32 < 2 ^ 32).
  { assert (0 <= r0 / 2 ^ 32).
    { apply Z.div_pos; [ | lia ]. rewrite E0.
      assert (0 <= r3 / 2 ^ 31).
      { apply Z.div_pos; [ | lia ]. rewrite E3.
        assert (0 <= r2 / 2 ^ 32) by (apply Z.div_pos; lia). lia. }
      lia. }
    split; [ apply Z.div_pos; lia | ].
    apply Z.div_lt_upper_bound; [ lia | ].
    change (2 ^ 32 * 2 ^ 32) with (2 ^ 64). exact F1. }
  remember (r0 / 2 ^ 32) as q0 eqn:Hq0.
  remember (r1 / 2 ^ 32) as q1 eqn:Hq1.
  remember (r2 / 2 ^ 32) as q2 eqn:Hq2.
  remember (r3 / 2 ^ 31) as q3 eqn:Hq3.
  clear Hq0 Hq1 Hq2 Hq3. subst r1 r0 r3 r2.
  change (2 ^ 192) with (2 ^ 64 * 2 ^ 128).
  change (2 ^ 160) with (2 ^ 32 * 2 ^ 128).
  change (2 ^ 128) with (2 * (2 ^ 127 - 1) + 2).
  change (2 ^ 127 - 1) with (2 ^ 31 * 2 ^ 96 - 1).
  change (2 ^ 96) with (2 ^ 32 * 2 ^ 64).
  change (2 ^ 64) with (2 ^ 32 * 2 ^ 32) at 1 2.
  split; [ | ring ].
  change (2 ^ 32) with 4294967296 in *.
  change (2 ^ 31) with 2147483648 in *. lia.
Qed.

Lemma diagonal_sum_limbs (h m : Uint128) :
  diagonal_sum h m 0 + diagonal_sum h m 1 * 2 ^ 32
  + diagonal_sum h m 2 * 2 ^ 64 + diagonal_sum h m 3 * 2 ^ 96
  + diagonal_sum h m 4 * 2 ^ 128 + diagonal_sum h m 5 * 2 ^ 160
  + diagonal_sum h m 6 * 2 ^ 192
  = (limb h 0 + limb h 1 * 2 ^ 32 + limb h 2 * 2 ^ 64 + limb h 3 * 2 ^ 96)
    * (limb m 0 + limb m 1 * 2 ^ 32 + limb m 2 * 2 ^ 64 + limb m 3 * 2 ^ 96).
Proof.
  unfold diagonal_sum.
  cbv [seq filter map fold_right Nat.leb Nat.sub andb].
  change (2 ^ 192) with (2 ^ 96 * 2 ^ 96).
  change (2 ^ 160) with (2 ^ 64 * 2 ^ 96).
  change (2 ^ 128) with (2 ^ 32 * 2 ^ 96).
  change (2 ^ 96) with (2 ^ 32 * 2 ^ 32 * 2 ^ 32).
  change (2 ^ 64) with (2 ^ 32 * 2 ^ 32).
  ring.
Qed.


(** ** The finalizer *)

Lemma final_addlen_spec (acc : Uint128) (tailLen : Z) :
  wf acc -> 0 <= tailLen < 128 ->
  high (final_addlen acc tailLen) = (high acc + tailLen * 8) mod 2 ^ 64
  /\ low (final_addlen acc tailLen) = low acc
  /\ value (final_addlen acc tailLen)
     = (value acc + tailLen * 8 * 2 ^ 64) mod 2 ^ 128.
Proof.
  intros [Hh Hl] Ht. unfold final_addlen, Add, value. cbn [high low].
  unfold_u64. rewrite Z.add_0_r, (Z.mod_small (low acc)) by assumption.
  rewrite (Z.mod_small (tailLen * 8)) by lia.
  destruct (Z.ltb_spec (low acc) 0); [ lia | ]. cbn [high low].
  repeat split.
  change (2 ^ 128) with 340282366920938463463374607431768211456.
  change (2 ^ 64) with 18446744073709551616 in *. euclid.
Qed.

Lemma reduce_step_value (h : Uint128) :
  wf h -> value (reduce_step h) = high h * 0x101 + low h.
Proof.
  intros [Hh Hl]. unfold reduce_step.
  rewrite Add_value; [ | apply mul64_128_wf | split; cbn [high low]; unfold_u64; lia ].
  rewrite mul64_128_value by (unfold_u64; lia).
  unfold value at 1. cbn [high low]. unfold_u64.
  apply Z.mod_small. change (2 ^ 128) with (2 ^ 64 * 2 ^ 64).
  change (2 ^ 64) with 18446744073709551616 in *. lia.
Qed.

Lemma reduce_step_wf (h : Uint128) : wf (reduce_step h).
Proof. apply Add_wf. Qed.

Lemma reduce_step_mod (h : Uint128) :
  wf h -> value (reduce_step h) mod digest_modulus = value h mod digest_modulus.
Proof.
  intros Hh. rewrite reduce_step_value by assumption.
  unfold value, digest_modulus.
  replace (high h * 2 ^ 64 + low h)
    with (high h * 257 + low h + high h * (2 ^ 64 - 257)) by ring.
  rewrite Z_mod_plus_full. reflexivity.
Qed.

(** After two reduction steps the high limb is 0 or 1, and the low limb is
    small when it is 1. *)
Lemma reduce_twice_range (h : Uint128) :
  wf h ->
  let h2 := reduce_step (reduce_step h) in
  high h2 = 0 \/ (high h2 = 1 /\ low h2 < 66049).
Proof.
  intros Hh. cbv zeta.
  pose proof (reduce_step_wf h) as W1.
  pose proof (reduce_step_wf (reduce_step h)) as W2.
  pose proof (reduce_step_value h Hh) as V1.
  pose proof (reduce_step_value (reduce_step h) W1) as V2.
  destruct Hh as [Hh Hl]. destruct W1 as [W1h W1l]. destruct W2 as [W2h W2l].
  unfold value in *. unfold_u64.
  change (2 ^ 64) with 18446744073709551616 in *. lia.
Qed.

Lemma final_carry_spec (h : Uint128) :
  wf h -> high h = 0 \/ (high h = 1 /\ low h < 66049) ->
  U64.In (final_carry h)
  /\ final_carry h mod digest_modulus = value h mod digest_modulus.
Proof.
  intros [Hh Hl] H. unfold final_carry, value, digest_modulus. unfold_u64.
  destruct H as [E | [E Hs]]; rewrite E; cbn [Z.eqb negb].
  - split; [ assumption | ]. f_equal; lia.
  - rewrite Z.mod_small by lia. split; [ lia | ].
    replace (1 * 2 ^ 64 + low h) with (low h + 257 + 1 * (2 ^ 64 - 257)) by ring.
    rewrite Z_mod_plus_full. reflexivity.
Qed.

Lemma final_canon_spec (r : Z) :
  U64.In r ->
  0 <= final_canon r <= 0xFFFFFFFFFFFFFEFE
  /\ final_canon r mod digest_modulus = r mod digest_modulus.
Proof.
  intros Hr. unfold final_canon, digest_modulus. unfold_u64.
  destruct (Z.gtb_spec r 0xFFFFFFFFFFFFFEFE) as [Hgt | Hle].
  - assert (E : (r + 257) mod 2 ^ 64 = r + 257 - 2 ^ 64).
    { change (2 ^ 64) with 18446744073709551616 in *. euclid. }
    rewrite E. split; [ lia | ].
    replace r with (r + 257 - 2 ^ 64 + 1 * (2 ^ 64 - 257)) at 2 by ring.
    rewrite Z_mod_plus_full. reflexivity.
  - split; [ lia | reflexivity ].
Qed.

Lemma final_lanes_In (h : Uint128) :
  U64.In (fst (final_lanes h)) /\ U64.In (snd (final_lanes h)).
Proof.
  unfold final_lanes. cbv zeta. cbn [fst snd].
  split; match goal with |- U64.In (if ?c then _ else _) => destruct c end;
    apply add_In.
Qed.

Lemma final_reduce_spec (A B : Z) :
  U64.In A -> U64.In B ->
  0 <= final_reduce A B <= 0xFFFFFFFFFFFFFEFE
  /\ final_reduce A B mod digest_modulus = (A * B) mod digest_modulus.
Proof.
  intros HA HB. unfold final_reduce. cbv zeta.
  pose proof (mul64_128_wf A B) as W0.
  pose proof (reduce_twice_range _ W0) as R. cbv zeta in R.
  pose proof (reduce_step_wf (reduce_step (mul64_128 A B))) as W2.
  destruct (final_carry_spec _ W2 R) as [I C].
  destruct (final_canon_spec _ I) as [Rg E].
  split; [ exact Rg | ].
  rewrite E, C, !reduce_step_mod by (assumption || apply reduce_step_wf).
  rewrite mul64_128_value by assumption. reflexivity.
Qed.

(** ** Totality *)

Lemma hash_eq (input : list byte) :
  hash input
  = Some (hash_final (mix_spec input) (Z.of_nat (length input mod 128))).
Proof. unfold hash. rewrite hash_mix_eq. reflexivity. Qed.

Lemma testbit_above (x n : Z) : 0 <= x < 2 ^ n -> 0 <= n -> Z.testbit x n = false.
Proof.
  intros Hx Hn. rewrite <- (Z.mod_small x (2 ^ n)) by exact Hx.
  apply Z.mod_pow2_bits_high. lia.
Qed.

(** * The properties of the specification *)

(** ** Wide-integer arithmetic *)

(** C7. For 128-bit [a] and [b], [Add a b] has the value
    [(value a + value b) mod 2^128]; its low limb is the wrapped sum of the
    low limbs, the test "computed low limb < [b]'s low limb" holds exactly
    when the low limbs overflow 64 bits, and the high limb receives a carry
    of one exactly when that test holds. *)
Theorem Add_wraps_with_exact_carry (a b : Uint128) :
  wf a -> wf b ->
  value (Add a b) = (value a + value b) mod 2 ^ 128
  /\ low (Add a b) = (low a + low b) mod 2 ^ 64
  /\ (low (Add a b) < low b <-> 2 ^ 64 <= low a + low b)
  /\ high (Add a b)
     = (high a + high b + (if low (Add a b) <? low b then 1 else 0))
         mod 2 ^ 64.
Proof.
  intros Ha Hb. split; [ apply Add_value; assumption | ].
  assert (L : low (Add a b) = (low a + low b) mod 2 ^ 64).
  { unfold Add. destruct (_ <? _); reflexivity. }
  split; [ exact L | ]. split.
  - rewrite L. apply (Add_carry_iff a b Ha Hb).
  - rewrite L. unfold Add. unfold_u64.
    destruct (Z.ltb_spec ((low a + low b) mod 2 ^ 64) (low b)); cbn [high low].
    + apply Zplus_mod_idemp_l.
    + rewrite Z.add_0_r. reflexivity.
Qed.

Lemma Add_wraps_with_exact_carry_witness :
  let a := mkU128 1 (2 ^ 64 - 1) in
  let b := mkU128 (2 ^ 64 - 1) 1 in
  value (Add a b) = (value a + value b) mod 2 ^ 128
  /\ low (Add a b) = (low a + low b) mod 2 ^ 64
  /\ (low (Add a b) < low b <-> 2 ^ 64 <= low a + low b)
  /\ high (Add a b)
     = (high a + high b + (if low (Add a b) <? low b then 1 else 0))
         mod 2 ^ 64.
Proof.
  apply (Add_wraps_with_exact_carry (mkU128 1 (2 ^ 64 - 1))
           (mkU128 (2 ^ 64 - 1) 1));
    repeat split; cbn [high low]; unfold U64.modulus; lia.
Defined.

(** ** Block absorber *)

(** C4, refuted as stated: a block of 144 bytes has a length that is a
    multiple of 16, and [hashBlock] panics on it, the ninth lane indexing
    the table of sixteen constants at 16 (more iterations allowed change
    nothing; on 128 bytes it returns). *)
Lemma hashBlock_panics_on_nine_lanes :
  (length (repeat x00 144) mod 16 = 0)%nat
  /\ hashBlock (repeat x00 144) = None
  /\ nth_error magicTable 16 = None
  /\ hashBlock_loop 1000 (repeat x00 144) 0 0 (mkU128 0 0) = None
  /\ hashBlock (repeat x00 128)
     = Some (mkU128 0x66734EEC2444586 0x8357A13DA9D79608).
Proof. repeat split; vm_compute; reflexivity. Qed.

(** C4, amended.  For every block whose length is a multiple of 16 and at
    most 128, [hashBlock] returns the 128-bit value [absorb_value]: lane by
    lane, the two little-endian words plus table entries [2k] and [2k+1]
    (modulo 2^64), their exact product added into the running sum modulo
    2^128, and the sum ANDed with [0x3fffffffffffffffffffffffffffffff]; a
    zero-length block gives the zero accumulator. *)
Theorem hashBlock_absorbs_lanes (block : list byte) :
  (length block mod 16 = 0)%nat -> (length block <= 128)%nat ->
  (exists r, hashBlock block = Some r /\ wf r /\ value r = absorb_value block)
  /\ hashBlock [] = Some (mkU128 0 0).
Proof.
  intros Hm Hl. split; [ | reflexivity ].
  exists (absorb block). split; [ apply hashBlock_absorb; assumption | ].
  split; [ apply absorb_wf | ].
  unfold absorb. apply value_of_value. unfold absorb_value.
  change 0x3fffffffffffffffffffffffffffffff with (Z.ones 126).
  rewrite Z.land_ones by lia.
  pose proof (Z.mod_pos_bound (absorb_sum block) (2 ^ 126) eq_refl).
  change (2 ^ 128) with 340282366920938463463374607431768211456.
  change (2 ^ 126) with 85070591730234615865843651857942052864 in *. lia.
Qed.

Lemma hashBlock_absorbs_lanes_witness :
  (exists r, hashBlock (repeat xff 32) = Some r /\ wf r
             /\ value r = absorb_value (repeat xff 32))
  /\ hashBlock [] = Some (mkU128 0 0).
Proof.
  apply (hashBlock_absorbs_lanes (repeat xff 32)).
  - reflexivity.
  - cbn [repeat length]. lia.
Defined.

(** C8. Every value [hashBlock] returns lies in [[0, 2^126)]: bits 62 and 63
    of its high limb are zero. *)
Theorem hashBlock_below_2_126 (block : list byte) (r : Uint128) :
  hashBlock block = Some r ->
  0 <= value r < 2 ^ 126
  /\ Z.testbit (high r) 62 = false /\ Z.testbit (high r) 63 = false.
Proof.
  intros H. destruct (hashBlock_bound block r H) as [[[Hh0 Hh1] [Hl0 Hl1]] Hb].
  unfold U64.modulus in *. split.
  - unfold value. change (2 ^ 126) with (2 ^ 62 * 2 ^ 64).
    change (2 ^ 64) with 18446744073709551616 in *.
    change (2 ^ 62) with 4611686018427387904 in *. lia.
  - split; apply testbit_above; lia.
Qed.

Lemma hashBlock_below_2_126_witness :
  exists r, hashBlock (repeat xff 128) = Some r
            /\ 0 <= value r < 2 ^ 126
            /\ Z.testbit (high r) 62 = false /\ Z.testbit (high r) 63 = false.
Proof.
  eexists. split.
  - vm_compute. reflexivity.
  - apply (hashBlock_below_2_126 (repeat xff 128)). vm_compute. reflexivity.
Defined.

(** ** Block combiner *)

Ltac by_evaluation :=
  cbv zeta; repeat split; vm_compute; solve [ reflexivity | discriminate ].

(** C5. For 128-bit [h], [m] and [a], [hashMulAdd] is the carry chain of
    [combine_spec]: the seven diagonal sums of the products of 32-bit limbs,
    [r2 = c2 + (c6<<1) + a.high], [r3 = c3 + (r2>>32)],
    [r0 = c0 + (c4<<1) + a_0 + (r3>>31)], [r1 = c1 + (c5<<1) + a_1 + (r0>>32)],
    each modulo 2^64, and the two limbs reassembled from them. *)
Theorem hashMulAdd_carry_chain (h m a : Uint128) :
  wf h -> wf m -> wf a -> hashMulAdd h m a = combine_spec h m a.
Proof. apply hashMulAdd_arith. Qed.

Lemma hashMulAdd_carry_chain_witness :
  let h := mkU128 0xFEDCBA9876543210 0x0123456789ABCDEF in
  let a := mkU128 0x3FFFFFFFFFFFFFFF 0xFFFFFFFFFFFFFFFF in
  hashMulAdd h magicRound a = combine_spec h magicRound a.
Proof.
  apply (hashMulAdd_carry_chain
           (mkU128 0xFEDCBA9876543210 0x0123456789ABCDEF) magicRound
           (mkU128 0x3FFFFFFFFFFFFFFF 0xFFFFFFFFFFFFFFFF));
    by_evaluation.
Defined.

(** C2, refuted as stated: with [h = 2^64 - 1], the round constant as [m]
    and a zero addend, the column sum [c3] exceeds 64 bits and the result is
    not congruent to [h * m + a] modulo [2^127 - 1]. *)
Lemma hashMulAdd_not_congruent :
  let h := mkU128 0 0xFFFFFFFFFFFFFFFF in
  let a := mkU128 0 0 in
  wf h /\ wf magicRound /\ wf a
  /\ value (hashMulAdd h magicRound a) mod (2 ^ 127 - 1)
     <> (value h * value magicRound + value a) mod (2 ^ 127 - 1).
Proof. by_evaluation. Qed.

(** C2, amended.  For 128-bit [h], [m] and [a] on which no 64-bit sum of the
    carry chain wraps ([carries_fit]), the value of [hashMulAdd h m a] is
    congruent to [value h * value m + value a] modulo [2^127 - 1]. *)
Theorem hashMulAdd_congruent_when_carries_fit (h m a : Uint128) :
  wf h -> wf m -> wf a -> carries_fit h m a ->
  value (hashMulAdd h m a) mod (2 ^ 127 - 1)
  = (value h * value m + value a) mod (2 ^ 127 - 1).
Proof.
  intros Hh Hm Ha (F2 & F3 & F0 & F1).
  rewrite hashMulAdd_arith by assumption.
  rewrite (value_limbs h), (value_limbs m), (value_limbs_low a) by assumption.
  rewrite <- diagonal_sum_limbs.
  unfold combine_spec, diagonal. cbv zeta.
  pose proof (diagonal_sum_nonneg h m 0) as P0.
  pose proof (diagonal_sum_nonneg h m 1) as P1.
  pose proof (diagonal_sum_nonneg h m 2) as P2.
  pose proof (diagonal_sum_nonneg h m 3) as P3.
  pose proof (diagonal_sum_nonneg h m 4) as P4.
  pose proof (diagonal_sum_nonneg h m 5) as P5.
  pose proof (diagonal_sum_nonneg h m 6) as P6.
  pose proof (limb_range a 0) as Pa0. pose proof (limb_range a 1) as Pa1.
  assert (Pa23 : 0 <= high a) by (destruct Ha as [[? ?] _]; assumption).
  revert F2 F3 F0 F1.
  generalize dependent (diagonal_sum h m 0). intros c0 P0.
  generalize dependent (diagonal_sum h m 1). intros c1 P1.
  generalize dependent (diagonal_sum h m 2). intros c2 P2.
  generalize dependent (diagonal_sum h m 3). intros c3 P3.
  generalize dependent (diagonal_sum h m 4). intros c4 P4.
  generalize dependent (diagonal_sum h m 5). intros c5 P5.
  generalize dependent (diagonal_sum h m 6). intros c6 P6.
  generalize dependent (limb a 0). intros a0 Pa0.
  generalize dependent (limb a 1). intros a1 Pa1.
  generalize dependent (high a). intros a23 Pa23.
  intros F2 F3 F0 F1.
  assert (Q2 : 0 <= (c2 + 2 * c6 + a23) / 2 ^ 32) by (apply Z.div_pos; lia).
  assert (Q3 : 0 <= (c3 + (c2 + 2 * c6 + a23) / 2 ^ 32) / 2 ^ 31)
    by (apply Z.div_pos; lia).
  assert (Q0 : 0 <= (c0 + 2 * c4 + a0
                     + (c3 + (c2 + 2 * c6 + a23) / 2 ^ 32) / 2 ^ 31) / 2 ^ 32)
    by (apply Z.div_pos; lia).
  destruct (carry_chain_exact c0 c1 c2 c3 c4 c5 c6 a0 a1 a23
              P0 P1 P2 P3 P4 P5 P6 ltac:(lia) ltac:(lia) Pa23
              _ _ _ _ eq_refl eq_refl eq_refl eq_refl F2 F3 F0 F1)
    as [Hhi Heq].
  unfold U64.wrap, U64.modulus.
  rewrite (Z.mod_small c0), (Z.mod_small c1), (Z.mod_small c2),
    (Z.mod_small c3), (Z.mod_small c4), (Z.mod_small c5), (Z.mod_small c6)
    by lia.
  rewrite (Z.mod_small (2 * c4)), (Z.mod_small (2 * c5)),
    (Z.mod_small (2 * c6)) by lia.
  rewrite (Z.mod_small (c2 + 2 * c6 + a23)) by lia.
  rewrite (Z.mod_small (c3 + _)) by lia.
  rewrite (Z.mod_small (c0 + 2 * c4 + a0 + _)) by lia.
  rewrite (Z.mod_small (c1 + 2 * c5 + a1 + _)) by lia.
  rewrite (Z.mod_small (_ + _ + _ / 2 ^ 32) (2 ^ 64)) by exact Hhi.
  unfold value; cbn [high low].
  match goal with
  | |- _ = ?rhs mod _ => replace rhs with
      (c0 + c1 * 2 ^ 32 + c2 * 2 ^ 64 + c3 * 2 ^ 96 + c4 * 2 ^ 128
       + c5 * 2 ^ 160 + c6 * 2 ^ 192 + a0 + a1 * 2 ^ 32 + a23 * 2 ^ 64)
      by ring
  end.
  rewrite Heq. rewrite Z_mod_plus_full. reflexivity.
Qed.

Lemma hashMulAdd_congruent_when_carries_fit_witness :
  let h := mkU128 0x123456781234567 0x7654321076543210 in
  let m := mkU128 0x0000000100000002 0x0000000300000004 in
  let a := mkU128 0x3FFFFFFFFFFFFFFF 0xFFFFFFFFFFFFFFFF in
  value (hashMulAdd h m a) mod (2 ^ 127 - 1)
  = (value h * value m + value a) mod (2 ^ 127 - 1).
Proof.
  apply (hashMulAdd_congruent_when_carries_fit
           (mkU128 0x123456781234567 0x7654321076543210)
           (mkU128 0x0000000100000002 0x0000000300000004)
           (mkU128 0x3FFFFFFFFFFFFFFF 0xFFFFFFFFFFFFFFFF));
    by_evaluation.
Defined.

(** ** Orchestrator *)

(** C3. On every input, the accumulator before finalization is [mix_spec]:
    block 0 absorbed when there is a full block and the zero-padded tail (of
    length [16 * ceil(tailLen / 16)]) otherwise, the round constant added,
    blocks [1 .. numBlocks-1] folded in order with [hashMulAdd] and the round
    constant, and the padded tail folded last only when [numBlocks > 0] and
    [tailLen > 0], where absorbing a block is [hashBlock] on it; when the
    length is a positive multiple of 128 the result is the fold over the full
    blocks alone. *)
Theorem hash_mix_follows_spec (input : list byte) :
  hash_mix input = Some (mix_spec input, Z.of_nat (length input mod 128))
  /\ hash input
     = Some (hash_final (mix_spec input) (Z.of_nat (length input mod 128)))
  /\ length (paddedTail input)
     = (16 * ceil_div (length input mod 128) 16)%nat
  /\ hashBlock (paddedTail input) = Some (absorb (paddedTail input))
  /\ (forall i, (i < length input / 128)%nat ->
      hashBlock (block_at input i) = Some (absorb (block_at input i)))
  /\ ((0 < length input)%nat -> (length input mod 128 = 0)%nat ->
      mix_spec input = mix_blocks input).
Proof.
  split; [ apply hash_mix_eq | ]. split; [ apply hash_eq | ].
  split; [ apply length_paddedTail | ].
  split; [ apply hashBlock_paddedTail | ].
  split.
  { intros i Hi. pose proof (Nat.div_mod_eq (length input) 128).
    apply hashBlock_absorb; rewrite length_block_at by lia;
      (reflexivity || lia). }
  intros Hpos Hz. unfold mix_spec. rewrite Hz.
  pose proof (Nat.div_mod_eq (length input) 128).
  destruct (Nat.ltb_spec 0 (length input / 128)); [ reflexivity | lia ].
Qed.

(** C9. [hash] returns a digest on every byte buffer.  Each access it makes
    is in range: the tail slice [input[len(input)-tailLen:]], every block
    slice [input[128*i : 128*i+128]] with [i < numBlocks], and, inside
    [hashBlock] on each of those blocks and on the padded tail, every lane
    slice, word read and table index. *)
Theorem hash_total (input : list byte) :
  let n := len input in
  let numBlocks := Z.quot n 128 in
  let tailLen := Z.rem n 128 in
  (exists d, hash input = Some d)
  /\ (exists src, slice_from input (n - tailLen) = Some src /\ len src = tailLen)
  /\ (forall i, 0 <= i < numBlocks ->
      exists blk r,
        slice input (128 * i) (128 * i + 128) = Some blk
        /\ hashBlock blk = Some r)
  /\ (exists r, hashBlock (paddedTail input) = Some r).
Proof.
  cbv zeta. unfold len.
  rewrite Z.quot_div_nonneg, Z.rem_mod_nonneg by lia.
  pose proof (Z.mod_pos_bound (Z.of_nat (length input)) 128 eq_refl) as Ht.
  pose proof (Z.div_mod (Z.of_nat (length input)) 128 ltac:(lia)) as Hn.
  split; [ eexists; apply hash_eq | ]. split; [ | split ].
  - eexists. split; [ apply slice_from_ok; unfold len; lia | ].
    unfold len. rewrite length_skipn. lia.
  - intros i Hi. exists (block_at input (Z.to_nat i)). eexists.
    assert (128 * (Z.to_nat i + 1) <= length input)%nat by nia.
    split.
    + rewrite slice_ok by (unfold len; lia). unfold block_at. f_equal.
      f_equal; [ lia | f_equal; lia ].
    + apply hashBlock_absorb; rewrite length_block_at by assumption;
        (reflexivity || lia).
  - eexists. apply hashBlock_paddedTail.
Qed.

(** ** Finalizer *)

(** C1, refuted as stated: on a one-byte input ([tailLen = 1]) the first
    step of the finalizer leaves the low limb as it was, and the value of
    the accumulator does not grow by [tailLen * 8 = 8]. *)
Lemma final_addlen_not_low_limb :
  exists acc tailLen,
    hash_mix [x01] = Some (acc, tailLen)
    /\ tailLen = 1
    /\ low (final_addlen acc tailLen) = low acc
    /\ value (final_addlen acc tailLen)
       <> (value acc + tailLen * 8) mod 2 ^ 128.
Proof.
  eexists. eexists. split; [ vm_compute; reflexivity | ].
  by_evaluation.
Qed.

(** C1, amended.  On every input the first step of the finalizer adds
    [tailLen * 8] into the high limb of the accumulator: the high limb grows
    by [tailLen * 8] modulo 2^64, the low limb is unchanged, and the 128-bit
    value grows by [tailLen * 8 * 2^64] modulo 2^128. *)
Theorem final_addlen_adds_to_high_limb (input : list byte) :
  exists acc tailLen,
    hash_mix input = Some (acc, tailLen)
    /\ tailLen = Z.of_nat (length input mod 128)
    /\ high (final_addlen acc tailLen) = (high acc + tailLen * 8) mod 2 ^ 64
    /\ low (final_addlen acc tailLen) = low acc
    /\ value (final_addlen acc tailLen)
       = (value acc + tailLen * 8 * 2 ^ 64) mod 2 ^ 128.
Proof.
  exists (mix_spec input), (Z.of_nat (length input mod 128)).
  split; [ apply hash_mix_eq | ]. split; [ reflexivity | ].
  apply final_addlen_spec; [ apply mix_spec_wf | ].
  pose proof (Nat.mod_upper_bound (length input) 128 ltac:(lia)). lia.
Qed.

(** C6. On every input the digest is at most [0xFFFFFFFFFFFFFEFE], that is,
    strictly below the working modulus [2^64 - 257]. *)
Theorem hash_digest_canonical (input : list byte) :
  exists d, hash input = Some d
            /\ 0 <= d <= 0xFFFFFFFFFFFFFEFE /\ d < digest_modulus.
Proof.
  eexists. split; [ apply hash_eq | ].
  unfold hash_final.
  destruct (final_lanes _) as [A B] eqn:E.
  pose proof (final_lanes_In
                (final_mask (final_addlen (mix_spec input)
                               (Z.of_nat (length input mod 128))))) as [IA IB].
  rewrite E in IA, IB. cbn [fst snd] in IA, IB.
  destruct (final_reduce_spec A B IA IB) as [R _].
  unfold digest_modulus. lia.
Qed.

(** C10. A reduction step [h |-> Add (mul64_128 h.high 0x101) {0, h.low}] on
    a 128-bit [h] has the exact value [h.high * 257 + h.low], below 2^128,
    and keeps the residue modulo [2^64 - 257]; on every input, with [A] and
    [B] the two lane values of the finalizer, the two conditional additions
    of 257 keep the residue as well, and the digest is congruent to [A * B]
    modulo [2^64 - 257]. *)
Theorem finalizer_preserves_residue (h : Uint128) (input : list byte) :
  wf h ->
  (value (reduce_step h) = high h * 0x101 + low h
   /\ value (reduce_step h) < 2 ^ 128
   /\ value (reduce_step h) mod digest_modulus = value h mod digest_modulus)
  /\ exists acc tailLen A B,
       hash_mix input = Some (acc, tailLen)
       /\ final_lanes (final_mask (final_addlen acc tailLen)) = (A, B)
       /\ let h2 := reduce_step (reduce_step (mul64_128 A B)) in
          value h2 mod digest_modulus = (A * B) mod digest_modulus
          /\ final_carry h2 mod digest_modulus = value h2 mod digest_modulus
          /\ final_canon (final_carry h2) mod digest_modulus
             = final_carry h2 mod digest_modulus
          /\ hash input = Some (final_canon (final_carry h2))
          /\ final_canon (final_carry h2) mod digest_modulus
             = (A * B) mod digest_modulus.
Proof.
  intros Hh. split.
  - split; [ apply reduce_step_value; assumption | ].
    split; [ | apply reduce_step_mod; assumption ].
    apply wf_value_range. apply reduce_step_wf.
  - exists (mix_spec input), (Z.of_nat (length input mod 128)).
    destruct (final_lanes _) as [A B] eqn:E. exists A, B.
    split; [ apply hash_mix_eq | ]. split; [ reflexivity | ]. cbv zeta.
    pose proof (final_lanes_In
                  (final_mask (final_addlen (mix_spec input)
                                 (Z.of_nat (length input mod 128))))) as [IA IB].
    rewrite E in IA, IB. cbn [fst snd] in IA, IB.
    pose proof (mul64_128_wf A B) as W0.
    pose proof (reduce_twice_range _ W0) as R. cbv zeta in R.
    pose proof (reduce_step_wf (reduce_step (mul64_128 A B))) as W2.
    destruct (final_carry_spec _ W2 R) as [I C].
    destruct (final_canon_spec _ I) as [_ Ec].
    assert (V : value (reduce_step (reduce_step (mul64_128 A B)))
                  mod digest_modulus = (A * B) mod digest_modulus).
    { rewrite !reduce_step_mod by (assumption || apply reduce_step_wf).
      rewrite mul64_128_value by assumption. reflexivity. }
    split; [ exact V | ]. split; [ exact C | ]. split; [ exact Ec | ].
    split.
    + rewrite hash_eq. unfold hash_final. rewrite E. reflexivity.
    + rewrite Ec, C. exact V.
Qed.

Lemma finalizer_preserves_residue_witness :
  let h := mkU128 0xFFFFFFFFFFFFFFFF 0xFFFFFFFFFFFFFFFF in
  let input := [x74; x65; x73; x74] in
  (value (reduce_step h) = high h * 0x101 + low h
   /\ value (reduce_step h) < 2 ^ 128
   /\ value (reduce_step h) mod digest_modulus = value h mod digest_modulus)
  /\ exists acc tailLen A B,
       hash_mix input = Some (acc, tailLen)
       /\ final_lanes (final_mask (final_addlen acc tailLen)) = (A, B)
       /\ let h2 := reduce_step (reduce_step (mul64_128 A B)) in
          value h2 mod digest_modulus = (A * B) mod digest_modulus
          /\ final_carry h2 mod digest_modulus = value h2 mod digest_modulus
          /\ final_canon (final_carry h2) mod digest_modulus
             = final_carry h2 mod digest_modulus
          /\ hash input = Some (final_canon (final_carry h2))
          /\ final_canon (final_carry h2) mod digest_modulus
             = (A * B) mod digest_modulus.
Proof.
  apply (finalizer_preserves_residue
           (mkU128 0xFFFFFFFFFFFFFFFF 0xFFFFFFFFFFFFFFFF)
           [x74; x65; x73; x74]).
  by_evaluation.
Defined.

(** * Further properties of the code *)

(** ** Wide-integer arithmetic *)

Lemma value_inj (u v : Uint128) : wf u -> wf v -> value u = value v -> u = v.
Proof.
  destruct u as [uh ul], v as [vh vl]. unfold wf, value; cbn [high low].
  unfold_u64. intros [Hh Hl] [Hh' Hl'] E.
  change (2 ^ 64) with 18446744073709551616 in *.
  assert (uh = vh) by lia. subst. f_equal. lia.
Qed.

Lemma testbit_high (x k n : Z) :
  0 <= x < 2 ^ k -> 0 <= k <= n -> Z.testbit x n = false.
Proof.
  intros Hx Hn. rewrite <- (Z.mod_small x (2 ^ k)) by exact Hx.
  apply Z.mod_pow2_bits_high. lia.
Qed.

Lemma land_range (x y k : Z) :
  0 <= k -> 0 <= y < 2 ^ k -> 0 <= Z.land x y < 2 ^ k.
Proof.
  intros Hk Hy.
  rewrite <- (Z.mod_small y (2 ^ k)) by exact Hy.
  rewrite <- Z.land_ones, Z.land_assoc, Z.land_ones by exact Hk.
  apply Z.mod_pos_bound. apply Z.pow_pos_nonneg; lia.
Qed.

Lemma value_lor (u : Uint128) :
  U64.In (low u) -> value u = Z.lor (Z.shiftl (high u) 64) (low u).
Proof.
  intros Hl. unfold value. rewrite Z.shiftl_mul_pow2 by lia.
  symmetry. apply lor_mul_add; [ lia | exact Hl ].
Qed.

Lemma And_wf (a b : Uint128) : wf b -> wf (And a b).
Proof.
  intros [Hh Hl]. split; cbn [And high low]; unfold U64.and;
    apply land_range; (lia || assumption).
Qed.

Lemma And_value (a b : Uint128) :
  wf a -> wf b -> value (And a b) = Z.land (value a) (value b).
Proof.
  intros Ha Hb. pose proof (And_wf a b Hb) as Hw.
  rewrite (value_lor a), (value_lor b), (value_lor (And a b))
    by (apply Ha || apply Hb || apply Hw).
  destruct Ha as [_ Hla], Hb as [_ Hlb]. unfold U64.In, U64.modulus in *.
  cbn [And high low]. unfold U64.and.
  apply Z.bits_inj'. intros n Hn.
  rewrite Z.land_spec, !Z.lor_spec, Z.land_spec.
  destruct (Z.lt_ge_cases n 64) as [Hlt | Hge].
  - rewrite !Z.shiftl_spec_low by assumption. reflexivity.
  - rewrite !Z.shiftl_spec by assumption. rewrite Z.land_spec.
    rewrite (testbit_high (low a) 64 n), (testbit_high (low b) 64 n) by lia.
    rewrite !orb_false_r. reflexivity.
Qed.

Lemma Cmp_lt (a b : Uint128) :
  wf a -> wf b -> (Cmp a b = -1 <-> value a < value b).
Proof.
  intros [[? ?] [? ?]] [[? ?] [? ?]]. unfold Cmp, value. unfold U64.modulus in *.
  change (2 ^ 64) with 18446744073709551616 in *.
  destruct (Z.eqb_spec (high a) (high b));
    repeat match goal with
           | |- context [?x <? ?y] => destruct (Z.ltb_spec x y)
           | |- context [?x >? ?y] => destruct (Z.gtb_spec x y)
           end; split; intros; try discriminate; try reflexivity; lia.
Qed.

Lemma Cmp_gt (a b : Uint128) :
  wf a -> wf b -> (Cmp a b = 1 <-> value b < value a).
Proof.
  intros [[? ?] [? ?]] [[? ?] [? ?]]. unfold Cmp, value. unfold U64.modulus in *.
  change (2 ^ 64) with 18446744073709551616 in *.
  destruct (Z.eqb_spec (high a) (high b));
    repeat match goal with
           | |- context [?x <? ?y] => destruct (Z.ltb_spec x y)
           | |- context [?x >? ?y] => destruct (Z.gtb_spec x y)
           end; split; intros; try discriminate; try reflexivity; lia.
Qed.

Lemma Cmp_range (a b : Uint128) : Cmp a b = -1 \/ Cmp a b = 0 \/ Cmp a b = 1.
Proof.
  unfold Cmp. destruct (_ <? _); [ auto | ]. destruct (_ >? _); auto.
Qed.

(** X1. [Cmp] orders 128-bit values by the number they stand for: it is -1,
    0 or 1, and -1 exactly when [a] is below [b], 0 exactly when the two are
    equal, 1 exactly when [a] is above [b]. *)
Theorem Cmp_orders_values (a b : Uint128) :
  wf a -> wf b ->
  (Cmp a b = -1 <-> value a < value b)
  /\ (Cmp a b = 0 <-> a = b)
  /\ (Cmp a b = 1 <-> value b < value a)
  /\ Cmp b a = - Cmp a b.
Proof.
  intros Ha Hb.
  pose proof (Cmp_lt a b Ha Hb) as L. pose proof (Cmp_gt a b Ha Hb) as G.
  pose proof (Cmp_lt b a Hb Ha) as L'. pose proof (Cmp_gt b a Hb Ha) as G'.
  pose proof (Cmp_range a b) as R. pose proof (Cmp_range b a) as R'.
  split; [ exact L | ]. split; [ | split; [ exact G | ] ].
  - split.
    + intros E. apply value_inj; try assumption. lia.
    + intros ->. lia.
  - lia.
Qed.

Lemma Cmp_orders_values_witness :
  let a := mkU128 1 0 in
  let b := mkU128 0 0xFFFFFFFFFFFFFFFF in
  (Cmp a b = -1 <-> value a < value b)
  /\ (Cmp a b = 0 <-> a = b)
  /\ (Cmp a b = 1 <-> value b < value a)
  /\ Cmp b a = - Cmp a b.
Proof.
  apply (Cmp_orders_values (mkU128 1 0) (mkU128 0 0xFFFFFFFFFFFFFFFF));
    by_evaluation.
Defined.

(** X2. [And] is the bitwise AND of the two 128-bit numbers, and its result
    is a 128-bit value. *)
Theorem And_is_bitwise_and (a b : Uint128) :
  wf a -> wf b ->
  wf (And a b) /\ value (And a b) = Z.land (value a) (value b).
Proof.
  intros Ha Hb. split; [ apply And_wf; assumption | apply And_value; assumption ].
Qed.

Lemma And_is_bitwise_and_witness :
  let a := mkU128 0xF0F0F0F0F0F0F0F0 0x123456789ABCDEF0 in
  wf (And a u7fff) /\ value (And a u7fff) = Z.land (value a) (value u7fff).
Proof.
  apply (And_is_bitwise_and (mkU128 0xF0F0F0F0F0F0F0F0 0x123456789ABCDEF0) u7fff);
    by_evaluation.
Defined.

(** X3. [mul64_128] is exact: on two 64-bit words it returns a 128-bit
    value whose number is their product, the high limb being the product
    divided by 2^64 and the low limb its remainder. *)
Theorem mul64_128_exact (a b : Z) :
  U64.In a -> U64.In b ->
  wf (mul64_128 a b)
  /\ value (mul64_128 a b) = a * b
  /\ high (mul64_128 a b) = (a * b) / 2 ^ 64
  /\ low (mul64_128 a b) = (a * b) mod 2 ^ 64.
Proof.
  intros Ha Hb. split; [ apply mul64_128_wf | ].
  split; [ apply mul64_128_value; assumption | ].
  unfold mul64_128; cbn [high low]. unfold_u64.
  rewrite Z.shiftr_div_pow2 by lia. split; [ | reflexivity ].
  apply Z.mod_small.
  assert (0 <= a * b < 2 ^ 64 * 2 ^ 64) by nia.
  split; [ apply Z.div_pos; lia | apply Z.div_lt_upper_bound; lia ].
Qed.

Lemma mul64_128_exact_witness :
  let a := 0xFFFFFFFFFFFFFFFF in
  wf (mul64_128 a a)
  /\ value (mul64_128 a a) = a * a
  /\ high (mul64_128 a a) = (a * a) / 2 ^ 64
  /\ low (mul64_128 a a) = (a * a) mod 2 ^ 64.
Proof.
  apply (mul64_128_exact 0xFFFFFFFFFFFFFFFF 0xFFFFFFFFFFFFFFFF); by_evaluation.
Defined.

(** X4. On 128-bit values [Add] is commutative and associative, and the
    zero value is neutral: the carry test on [b]'s low limb makes no
    difference between the two orders. *)
Theorem Add_commutative_associative (a b c : Uint128) :
  wf a -> wf b -> wf c ->
  Add a b = Add b a
  /\ Add (Add a b) c = Add a (Add b c)
  /\ Add a (mkU128 0 0) = a
  /\ Add (mkU128 0 0) a = a.
Proof.
  intros Ha Hb Hc.
  assert (Hz : wf (mkU128 0 0)) by (repeat split; cbn [high low]; lia).
  pose proof (wf_value_range a Ha) as Ra.
  repeat split; apply value_inj; try apply Add_wf; try assumption;
    rewrite ?Add_value by (assumption || apply Add_wf).
  - f_equal. lia.
  - rewrite Zplus_mod_idemp_l, Zplus_mod_idemp_r. f_equal. lia.
  - unfold value at 2. cbn [high low]. rewrite Z.add_0_r.
    apply Z.mod_small. exact Ra.
  - unfold value at 1. cbn [high low]. apply Z.mod_small. exact Ra.
Qed.

Lemma Add_commutative_associative_witness :
  let a := mkU128 0xFFFFFFFFFFFFFFFF 0xFFFFFFFFFFFFFFFF in
  let b := mkU128 0 1 in
  let c := magicRound in
  Add a b = Add b a
  /\ Add (Add a b) c = Add a (Add b c)
  /\ Add a (mkU128 0 0) = a
  /\ Add (mkU128 0 0) a = a.
Proof.
  apply (Add_commutative_associative
           (mkU128 0xFFFFFFFFFFFFFFFF 0xFFFFFFFFFFFFFFFF) (mkU128 0 1)
           magicRound); by_evaluation.
Defined.

(** ** Block absorber *)

Lemma LittleEndian_Uint64_short (bs : list byte) :
  (length bs < 8)%nat -> LittleEndian_Uint64 bs = None.
Proof.
  intros H.
  do 8 (destruct bs as [ | ? bs]; [ reflexivity | ]).
  cbn [length] in H. lia.
Qed.

Lemma hashBlock_loop_step (block : list byte) (k fuel : nat) (h : Uint128) :
  (16 * k + 16 <= length block)%nat -> (k < 8)%nat ->
  exists h',
    hashBlock_loop (S fuel) block (16 * Z.of_nat k) (2 * k) h
    = hashBlock_loop fuel block (16 * Z.of_nat (S k)) (2 * S k) h'.
Proof.
  intros Hlen Hk. cbn [hashBlock_loop]. unfold len at 1.
  destruct (Z.ltb_spec (16 * Z.of_nat k) (Z.of_nat (length block))); [ | lia ].
  rewrite slice_from_ok by (unfold len; lia). cbn [bind].
  rewrite LittleEndian_Uint64_le64 by (rewrite length_skipn; lia).
  cbn [bind]. rewrite magic_nth_error by lia. cbn [bind].
  rewrite slice_from_ok by (unfold len; lia). cbn [bind].
  rewrite LittleEndian_Uint64_le64 by (rewrite length_skipn; lia).
  cbn [bind]. rewrite magic_nth_error by lia. cbn [bind].
  replace (16 * Z.of_nat k + 16) with (16 * Z.of_nat (S k)) by lia.
  replace (S (S (2 * k))) with (2 * S k)%nat by lia.
  eexists. reflexivity.
Qed.

Lemma hashBlock_loop_prefix (block : list byte) :
  forall (d k fuel : nat) (h : Uint128),
    (16 * (k + d) <= length block)%nat -> (k + d <= 8)%nat ->
    exists h',
      hashBlock_loop (d + fuel) block (16 * Z.of_nat k) (2 * k) h
      = hashBlock_loop fuel block (16 * Z.of_nat (k + d)) (2 * (k + d)) h'.
Proof.
  induction d as [ | d IH]; intros k fuel h Hlen Hk.
  - exists h. rewrite Nat.add_0_r. reflexivity.
  - destruct (hashBlock_loop_step block k (d + fuel) h ltac:(lia) ltac:(lia))
      as [h1 E1].
    destruct (IH (S k) fuel h1 ltac:(lia) ltac:(lia)) as [h2 E2].
    exists h2. cbn [Nat.add]. rewrite E1, E2.
    replace (S k + d)%nat with (k + S d)%nat by lia. reflexivity.
Qed.

(** The iteration that starts a ninth lane, or a lane the block does not
    fill, panics. *)
Lemma hashBlock_loop_panics (block : list byte) (k fuel : nat) (h : Uint128) :
  (16 * k < length block)%nat -> (k <= 8)%nat ->
  (k = 8 \/ length block < 16 * k + 16)%nat ->
  hashBlock_loop fuel block (16 * Z.of_nat k) (2 * k) h = None.
Proof.
  intros Hlt Hk Hcase. destruct fuel as [ | fuel]; cbn [hashBlock_loop];
    unfold len at 1;
    destruct (Z.ltb_spec (16 * Z.of_nat k) (Z.of_nat (length block)));
    try lia; [ reflexivity | ].
  rewrite slice_from_ok by (unfold len; lia). cbn [bind].
  replace (Z.to_nat (16 * Z.of_nat k)) with (16 * k)%nat by lia.
  destruct (Nat.lt_ge_cases (length block) (16 * k + 8)) as [Hs | Hs].
  { rewrite LittleEndian_Uint64_short by (rewrite length_skipn; lia).
    reflexivity. }
  rewrite LittleEndian_Uint64_le64 by (rewrite length_skipn; lia).
  cbn [bind]. destruct (Nat.eq_dec k 8) as [-> | Hne]; [ reflexivity | ].
  rewrite magic_nth_error by lia. cbn [bind].
  rewrite slice_from_ok by (unfold len; lia). cbn [bind].
  rewrite LittleEndian_Uint64_short by (rewrite length_skipn; lia).
  reflexivity.
Qed.

Lemma hashBlock_panics (block : list byte) :
  (length block mod 16 <> 0 \/ 128 < length block)%nat ->
  hashBlock block = None.
Proof.
  intros H. unfold hashBlock.
  pose proof (Nat.div_mod_eq (length block) 16) as Hd.
  pose proof (Nat.mod_upper_bound (length block) 16 ltac:(lia)) as Hm.
  set (kf := Nat.min (length block / 16) 8).
  assert (Hkf : (16 * kf < length block)%nat) by lia.
  destruct (hashBlock_loop_prefix block kf 0 (length block - kf) (mkU128 0 0)
              ltac:(lia) ltac:(lia)) as [h' E].
  replace (kf + (length block - kf))%nat with (length block) in E by lia.
  change (16 * Z.of_nat 0) with 0 in E. change (2 * 0)%nat with 0%nat in E.
  rewrite E. cbn [Nat.add].
  rewrite hashBlock_loop_panics by lia. reflexivity.
Qed.

(** X5. [hashBlock] returns exactly on the blocks whose length is a multiple
    of 16 and at most 128: on every other block it panics, reading a word
    past the end of the block or indexing the table of sixteen constants
    past its end. *)
Theorem hashBlock_returns_iff (block : list byte) :
  (exists r, hashBlock block = Some r)
  <-> (length block mod 16 = 0 /\ length block <= 128)%nat.
Proof.
  split.
  - intros [r Hr].
    destruct (Nat.eq_dec (length block mod 16) 0) as [E | E];
      destruct (Nat.le_gt_cases (length block) 128) as [L | L];
      try (split; assumption);
      rewrite hashBlock_panics in Hr by lia; discriminate.
  - intros [E L]. eexists. apply hashBlock_absorb; assumption.
Qed.

(** ** Block combiner and running accumulator *)

Lemma hashMulAdd_high (h m a : Uint128) :
  wf h -> wf m -> wf a -> high (hashMulAdd h m a) <= 2 ^ 63 + 2 ^ 32 - 2.
Proof.
  intros Hh Hm Ha. rewrite hashMulAdd_arith by assumption.
  unfold combine_spec. cbv zeta. cbn [high].
  match goal with
  | |- ((?r3 mod _) * _ + ?r2 mod _ + ?r1 mod _ / _) mod _ <= _ =>
      pose proof (Z.mod_pos_bound r3 (2 ^ 31) eq_refl);
      pose proof (Z.mod_pos_bound r2 (2 ^ 32) eq_refl);
      pose proof (Z.mod_pos_bound r1 (2 ^ 64) eq_refl);
      generalize dependent (r3 mod 2 ^ 31);
      generalize dependent (r2 mod 2 ^ 32);
      generalize dependent (r1 mod 2 ^ 64)
  end.
  intros x1 H1 x2 H2 x3 H3.
  change (2 ^ 64) with 18446744073709551616 in *.
  change (2 ^ 63) with 9223372036854775808.
  change (2 ^ 32) with 4294967296 in *.
  change (2 ^ 31) with 2147483648 in *. euclid.
Qed.

(** X6. The combiner returns a 128-bit value whose high limb is at most
    [2^63 + 2^32 - 2], whatever the 128-bit operands: its number is below
    [2^127 + 2^96]. *)
Theorem hashMulAdd_bounded (h m a : Uint128) :
  wf h -> wf m -> wf a ->
  wf (hashMulAdd h m a)
  /\ high (hashMulAdd h m a) <= 2 ^ 63 + 2 ^ 32 - 2
  /\ value (hashMulAdd h m a) < 2 ^ 127 + 2 ^ 96.
Proof.
  intros Hh Hm Ha. pose proof (hashMulAdd_wf h m a) as W.
  pose proof (hashMulAdd_high h m a Hh Hm Ha) as B.
  split; [ exact W | ]. split; [ exact B | ].
  destruct W as [_ [Hl0 Hl1]]. unfold value. unfold U64.modulus in *.
  change (2 ^ 127) with (2 ^ 63 * 2 ^ 64).
  change (2 ^ 96) with (2 ^ 32 * 2 ^ 64).
  change (2 ^ 64) with 18446744073709551616 in *.
  change (2 ^ 63) with 9223372036854775808 in *.
  change (2 ^ 32) with 4294967296 in *. lia.
Qed.

Lemma hashMulAdd_bounded_witness :
  let h := mkU128 0xFFFFFFFFFFFFFFFF 0xFFFFFFFFFFFFFFFF in
  wf (hashMulAdd h h h)
  /\ high (hashMulAdd h h h) <= 2 ^ 63 + 2 ^ 32 - 2
  /\ value (hashMulAdd h h h) < 2 ^ 127 + 2 ^ 96.
Proof.
  apply (hashMulAdd_bounded
           (mkU128 0xFFFFFFFFFFFFFFFF 0xFFFFFFFFFFFFFFFF)
           (mkU128 0xFFFFFFFFFFFFFFFF 0xFFFFFFFFFFFFFFFF)
           (mkU128 0xFFFFFFFFFFFFFFFF 0xFFFFFFFFFFFFFFFF)); by_evaluation.
Defined.

Lemma absorb_value_range (block : list byte) :
  0 <= absorb_value block < 2 ^ 126.
Proof.
  unfold absorb_value.
  change 0x3fffffffffffffffffffffffffffffff with (Z.ones 126).
  rewrite Z.land_ones by lia. apply Z.mod_pos_bound. reflexivity.
Qed.

Lemma value_absorb (block : list byte) :
  value (absorb block) = absorb_value block.
Proof.
  unfold absorb. apply value_of_value.
  pose proof (absorb_value_range block).
  change (2 ^ 128) with 340282366920938463463374607431768211456.
  change (2 ^ 126) with 85070591730234615865843651857942052864 in *. lia.
Qed.

Lemma Add_magicRound_value (block : list byte) :
  value (Add (absorb block) magicRound)
  = absorb_value block + value magicRound.
Proof.
  rewrite Add_value by (apply absorb_wf || by_evaluation).
  rewrite value_absorb. pose proof (absorb_value_range block).
  apply Z.mod_small. change (value magicRound)
    with 0x78F32468CD48D6DE14C983660183C0AE.
  change (2 ^ 128) with 340282366920938463463374607431768211456.
  change (2 ^ 126) with 85070591730234615865843651857942052864 in *. lia.
Qed.

Lemma mix_spec_value_bound (input : list byte) :
  value (mix_spec input) < 3 * 2 ^ 126.
Proof.
  assert (HA : forall block,
             value (Add (absorb block) magicRound) < 3 * 2 ^ 126).
  { intros block. rewrite Add_magicRound_value.
    pose proof (absorb_value_range block).
    change (value magicRound) with 0x78F32468CD48D6DE14C983660183C0AE.
    change (2 ^ 126) with 85070591730234615865843651857942052864 in *. lia. }
  assert (HM : forall h a, wf h -> wf a ->
             value (hashMulAdd h magicRound a) < 3 * 2 ^ 126).
  { intros h a Hh Ha.
    pose proof (hashMulAdd_high h magicRound a Hh ltac:(by_evaluation) Ha).
    destruct (hashMulAdd_wf h magicRound a) as [_ [? Hl]].
    unfold value. unfold U64.modulus in *.
    change (2 ^ 126) with (2 ^ 62 * 2 ^ 64).
    change (2 ^ 64) with 18446744073709551616 in *.
    change (2 ^ 63) with 9223372036854775808 in *.
    change (2 ^ 62) with 4611686018427387904.
    change (2 ^ 32) with 4294967296 in *. lia. }
  assert (HB : wf (mix_blocks input)
               /\ value (mix_blocks input) < 3 * 2 ^ 126).
  { unfold mix_blocks. generalize (seq 1 (length input / 128 - 1)).
    intros l.
    assert (G : forall h, wf h -> value h < 3 * 2 ^ 126 ->
                wf (fold_left (combine_block input) l h)
                /\ value (fold_left (combine_block input) l h) < 3 * 2 ^ 126).
    { induction l as [ | i l IH]; intros h Hh Hv; [ split; assumption | ].
      cbn [fold_left]. apply IH; [ apply hashMulAdd_wf | ].
      apply HM; [ assumption | apply absorb_wf ]. }
    apply G; [ apply Add_wf | apply HA ]. }
  unfold mix_spec.
  destruct (0 <? _)%nat; [ destruct (0 <? _)%nat | ].
  - apply HM; [ apply HB | apply absorb_wf ].
  - apply HB.
  - apply HA.
Qed.

Lemma final_addlen_mix_spec (input : list byte) :
  let acc := mix_spec input in
  let tailLen := Z.of_nat (length input mod 128) in
  0 <= tailLen < 128
  /\ value (final_addlen acc tailLen) = value acc + tailLen * 8 * 2 ^ 64
  /\ value (final_addlen acc tailLen) < 2 ^ 128 - 1.
Proof.
  cbv zeta.
  pose proof (mix_spec_wf input) as W.
  pose proof (mix_spec_value_bound input) as B.
  pose proof (wf_value_range _ W) as R.
  pose proof (Nat.mod_upper_bound (length input) 128 ltac:(lia)) as T.
  split; [ lia | ].
  destruct (final_addlen_spec (mix_spec input)
              (Z.of_nat (length input mod 128)) W ltac:(lia)) as (_ & _ & V).
  rewrite V.
  assert (S : (value (mix_spec input)
               + Z.of_nat (length input mod 128) * 8 * 2 ^ 64) mod 2 ^ 128
              = value (mix_spec input)
                + Z.of_nat (length input mod 128) * 8 * 2 ^ 64).
  { apply Z.mod_small.
    change (2 ^ 128) with 340282366920938463463374607431768211456 in *.
    change (2 ^ 126) with 85070591730234615865843651857942052864 in *.
    change (2 ^ 64) with 18446744073709551616. lia. }
  rewrite S. split; [ reflexivity | ].
  change (2 ^ 128) with 340282366920938463463374607431768211456 in *.
  change (2 ^ 126) with 85070591730234615865843651857942052864 in *.
  change (2 ^ 64) with 18446744073709551616. lia.
Qed.

(** X7. On every input the accumulator that reaches the finalizer is a
    128-bit value below [3 * 2^126], so that adding the bit length of the
    tail to its high limb never wraps: the first step of the finalizer adds
    exactly [tailLen * 8 * 2^64] and stays below [2^128 - 1]. *)
Theorem accumulator_bounded (input : list byte) :
  exists acc tailLen,
    hash_mix input = Some (acc, tailLen)
    /\ wf acc
    /\ value acc < 3 * 2 ^ 126
    /\ 0 <= tailLen < 128
    /\ value (final_addlen acc tailLen) = value acc + tailLen * 8 * 2 ^ 64
    /\ value (final_addlen acc tailLen) < 2 ^ 128 - 1.
Proof.
  exists (mix_spec input), (Z.of_nat (length input mod 128)).
  split; [ apply hash_mix_eq | ]. split; [ apply mix_spec_wf | ].
  split; [ apply mix_spec_value_bound | ].
  apply (final_addlen_mix_spec input).
Qed.

(** ** Finalizer *)

Lemma u7fff_wf : wf u7fff.
Proof. by_evaluation. Qed.

Lemma And_u7fff_value (h : Uint128) :
  wf h -> value (And h u7fff) = value h mod 2 ^ 127.
Proof.
  intros Hh. rewrite And_value by (assumption || apply u7fff_wf).
  change (value u7fff) with (Z.ones 127). apply Z.land_ones. lia.
Qed.

Lemma final_mask_value (h : Uint128) :
  wf h ->
  value (final_mask h)
  = if value h <? 2 ^ 127 - 1 then value h else (value h + 1) mod 2 ^ 127.
Proof.
  intros Hh. unfold final_mask.
  pose proof (Cmp_lt h u7fff Hh u7fff_wf) as L.
  change (value u7fff) with (2 ^ 127 - 1) in L.
  pose proof (wf_value_range h Hh) as R.
  destruct (Z.ltb_spec (value h) (2 ^ 127 - 1)) as [Hlt | Hge].
  - apply L in Hlt. rewrite Hlt. cbn [Z.geb Z.compare].
    rewrite And_u7fff_value by assumption. apply Z.mod_small.
    apply L in Hlt. lia.
  - assert (N : Cmp h u7fff <> -1) by (intros E; apply L in E; lia).
    destruct (Cmp_range h u7fff) as [E | [E | E]]; [ contradiction | | ];
      rewrite E; cbn [Z.geb Z.compare];
      rewrite And_u7fff_value by apply Add_wf;
      (rewrite Add_value by (assumption || by_evaluation));
      change (value (mkU128 0 1)) with 1;
      change (2 ^ 128) with 340282366920938463463374607431768211456;
      change (2 ^ 127) with 170141183460469231731687303715884105728;
      euclid.
Qed.

Lemma final_mask_wf (h : Uint128) : wf (final_mask h).
Proof. unfold final_mask. apply And_wf. apply u7fff_wf. Qed.

(** X8. The second step of the finalizer reduces modulo [2^127 - 1]: on a
    128-bit accumulator other than [2^128 - 1] it returns a value below
    2^127 that is congruent to the accumulator modulo [2^127 - 1]; it leaves
    values below [2^127 - 1] as they are and takes the others to
    [(v + 1) mod 2^127]. *)
Theorem final_mask_reduces (h : Uint128) :
  wf h ->
  wf (final_mask h)
  /\ 0 <= value (final_mask h) < 2 ^ 127
  /\ value (final_mask h)
     = (if value h <? 2 ^ 127 - 1 then value h else (value h + 1) mod 2 ^ 127)
  /\ (value h < 2 ^ 128 - 1 ->
      value (final_mask h) mod (2 ^ 127 - 1) = value h mod (2 ^ 127 - 1)).
Proof.
  intros Hh. pose proof (final_mask_value h Hh) as V.
  pose proof (wf_value_range h Hh) as R.
  split; [ apply final_mask_wf | ].
  split; [ | split; [ exact V | ] ]; rewrite V;
    destruct (Z.ltb_spec (value h) (2 ^ 127 - 1)) as [Hlt | Hge].
  - lia.
  - apply Z.mod_pos_bound. reflexivity.
  - reflexivity.
  - intros Hm.
    assert (E : (value h + 1) mod 2 ^ 127 = value h - (2 ^ 127 - 1)).
    { change (2 ^ 128) with 340282366920938463463374607431768211456 in *.
      change (2 ^ 127) with 170141183460469231731687303715884105728 in *.
      euclid. }
    rewrite E.
    replace (value h) with (value h - (2 ^ 127 - 1) + 1 * (2 ^ 127 - 1)) at 2
      by ring.
    rewrite Z_mod_plus_full. reflexivity.
Qed.

Lemma final_mask_reduces_witness :
  let h := mkU128 0xFFFFFFFFFFFFFFFF 0xFFFFFFFFFFFFFFFE in
  wf (final_mask h)
  /\ 0 <= value (final_mask h) < 2 ^ 127
  /\ value (final_mask h)
     = (if value h <? 2 ^ 127 - 1 then value h else (value h + 1) mod 2 ^ 127)
  /\ (value h < 2 ^ 128 - 1 ->
      value (final_mask h) mod (2 ^ 127 - 1) = value h mod (2 ^ 127 - 1)).
Proof.
  apply (final_mask_reduces (mkU128 0xFFFFFFFFFFFFFFFF 0xFFFFFFFFFFFFFFFE)).
  by_evaluation.
Defined.

Lemma add_257_wrap (x k : Z) :
  U64.In x -> 0 <= k < 2 ^ 64 - 257 ->
  (let A := x +^ k in if A <? x then A +^ 0x101 else A) = add_257 x k.
Proof.
  intros Hx Hk. cbv zeta. unfold add_257. unfold_u64.
  change (2 ^ 64) with 18446744073709551616 in *.
  destruct (Z.ltb_spec (x + k) 18446744073709551616) as [Hs | Hs].
  - rewrite (Z.mod_small (x + k)) by lia.
    destruct (Z.ltb_spec (x + k) x); [ lia | reflexivity ].
  - assert (E : (x + k) mod 18446744073709551616
                = x + k - 18446744073709551616) by euclid.
    rewrite E.
    destruct (Z.ltb_spec (x + k - 18446744073709551616) x); [ | lia ].
    apply Z.mod_small. lia.
Qed.

Lemma add_257_mod (x k : Z) :
  add_257 x k mod digest_modulus = (x + k) mod digest_modulus.
Proof.
  unfold add_257, digest_modulus. destruct (_ <? _); [ reflexivity | ].
  replace (x + k) with (x + k - 2 ^ 64 + 257 + 1 * (2 ^ 64 - 257)) at 2 by ring.
  rewrite Z_mod_plus_full. reflexivity.
Qed.

Lemma add_257_In (x k : Z) :
  U64.In x -> 0 <= k < 2 ^ 64 - 257 -> U64.In (add_257 x k).
Proof.
  intros Hx Hk. unfold add_257. unfold_u64.
  change (2 ^ 64) with 18446744073709551616 in *.
  destruct (Z.ltb_spec (x + k) 18446744073709551616); lia.
Qed.

(** The two folded lanes are the quotient and the remainder of the
    accumulator by [2^64 - 2^32]. *)
Lemma lane_fold_divmod (h0 h1 : Z) :
  0 <= h0 < 2 ^ 63 -> U64.In h1 ->
  let X := h0 +^ (h1 >> 32) in
  let X := ((X +^ (X >> 32) +^ 1) >> 32) +^ h0 in
  let Y := (X << 32) +^ h1 in
  X = (h0 * 2 ^ 64 + h1) / lane_divisor
  /\ Y = (h0 * 2 ^ 64 + h1) mod lane_divisor.
Proof.
  intros H0 H1. cbv zeta. unfold lane_divisor.
  rewrite !shr_div, shl_mul by lia. unfold_u64.
  change (2 ^ 64) with 18446744073709551616 in *.
  change (2 ^ 63) with 9223372036854775808 in *.
  change (2 ^ 32) with 4294967296 in *.
  change (18446744073709551616 - 4294967296) with 18446744069414584320.
  assert (E1 : (h0 + h1 / 4294967296) mod 18446744073709551616
               = h0 + h1 / 4294967296) by euclid.
  rewrite E1.
  set (t := h0 + h1 / 4294967296) in *.
  assert (Ht : 0 <= t < 9223372041149743104) by (subst t; euclid).
  assert (E2 : ((t + t / 4294967296) mod 18446744073709551616 + 1)
                 mod 18446744073709551616
               = t + t / 4294967296 + 1) by euclid.
  rewrite E2.
  assert (EX : ((t + t / 4294967296 + 1) / 4294967296 + h0)
                 mod 18446744073709551616
               = (h0 * 18446744073709551616 + h1) / 18446744069414584320)
    by (subst t; euclid).
  rewrite EX. split; [ reflexivity | ].
  euclid.
Qed.

Lemma final_lanes_divmod (h : Uint128) :
  wf h -> high h < 2 ^ 63 ->
  final_lanes h
  = (add_257 (value h / lane_divisor) (high magicFinal),
     add_257 (value h mod lane_divisor) (low magicFinal)).
Proof.
  intros [[Hh0 _] Hl] Hb. unfold final_lanes.
  destruct (lane_fold_divmod (high h) (low h) ltac:(lia) Hl) as [EX EY].
  cbv zeta in EX, EY. cbv zeta. fold (value h) in EX, EY.
  rewrite EY, EX.
  assert (D : 0 < lane_divisor) by reflexivity.
  pose proof (Z.mod_pos_bound (value h) lane_divisor D) as RY.
  assert (RX : U64.In (value h / lane_divisor)).
  { unfold U64.In, U64.modulus. split; [ apply Z.div_pos; [ | lia ] | ].
    - unfold value. unfold U64.In, U64.modulus in Hl. lia.
    - apply Z.div_lt_upper_bound; [ lia | ].
      unfold value, lane_divisor. unfold U64.In, U64.modulus in Hl.
      change (2 ^ 64) with 18446744073709551616 in *.
      change (2 ^ 63) with 9223372036854775808 in *.
      change (2 ^ 32) with 4294967296 in *. lia. }
  assert (RY' : U64.In (value h mod lane_divisor)).
  { unfold U64.In, U64.modulus. unfold lane_divisor in *.
    change (2 ^ 64) with 18446744073709551616 in *.
    change (2 ^ 32) with 4294967296 in *. lia. }
  pose proof (add_257_wrap _ (high magicFinal) RX ltac:(by_evaluation)) as A.
  pose proof (add_257_wrap _ (low magicFinal) RY' ltac:(by_evaluation)) as B.
  cbv zeta in A, B. rewrite A, B. reflexivity.
Qed.

(** X9. On a 128-bit value [h] below 2^127 the lane fold is a division by
    [2^64 - 2^32]: the two lanes returned are the quotient plus the first
    final constant and the remainder plus the second, each brought back
    into 64 bits by trading 2^64 for 257, and so congruent to those sums
    modulo [2^64 - 257]. *)
Theorem final_lanes_quotient_remainder (h : Uint128) :
  wf h -> high h < 2 ^ 63 ->
  let X := value h / lane_divisor in
  let Y := value h mod lane_divisor in
  final_lanes h = (add_257 X (high magicFinal), add_257 Y (low magicFinal))
  /\ U64.In (add_257 X (high magicFinal))
  /\ U64.In (add_257 Y (low magicFinal))
  /\ add_257 X (high magicFinal) mod digest_modulus
     = (X + high magicFinal) mod digest_modulus
  /\ add_257 Y (low magicFinal) mod digest_modulus
     = (Y + low magicFinal) mod digest_modulus.
Proof.
  intros Hh Hb. cbv zeta.
  pose proof (final_lanes_divmod h Hh Hb) as E.
  pose proof (final_lanes_In h) as [IA IB]. rewrite E in IA, IB.
  split; [ exact E | ]. split; [ exact IA | ]. split; [ exact IB | ].
  split; apply add_257_mod.
Qed.

Lemma final_lanes_quotient_remainder_witness :
  let h := mkU128 0x7FFFFFFFFFFFFFFF 0xFFFFFFFFFFFFFFFF in
  let X := value h / lane_divisor in
  let Y := value h mod lane_divisor in
  final_lanes h = (add_257 X (high magicFinal), add_257 Y (low magicFinal))
  /\ U64.In (add_257 X (high magicFinal))
  /\ U64.In (add_257 Y (low magicFinal))
  /\ add_257 X (high magicFinal) mod digest_modulus
     = (X + high magicFinal) mod digest_modulus
  /\ add_257 Y (low magicFinal) mod digest_modulus
     = (Y + low magicFinal) mod digest_modulus.
Proof.
  apply (final_lanes_quotient_remainder
           (mkU128 0x7FFFFFFFFFFFFFFF 0xFFFFFFFFFFFFFFFF)); by_evaluation.
Defined.

Lemma hash_final_closed (acc : Uint128) (tailLen : Z) :
  wf acc ->
  let v := value (final_mask (final_addlen acc tailLen)) in
  hash_final acc tailLen
  = ((v / lane_divisor + high magicFinal)
     * (v mod lane_divisor + low magicFinal)) mod digest_modulus.
Proof.
  intros Hacc. cbv zeta. unfold hash_final.
  assert (Wa : wf (final_addlen acc tailLen)) by apply Add_wf.
  pose proof (final_mask_wf (final_addlen acc tailLen)) as Wm.
  pose proof (final_mask_value _ Wa) as V.
  assert (Rv : 0 <= value (final_mask (final_addlen acc tailLen)) < 2 ^ 127).
  { rewrite V. pose proof (wf_value_range _ Wa).
    destruct (Z.ltb_spec (value (final_addlen acc tailLen)) (2 ^ 127 - 1));
      [ lia | apply Z.mod_pos_bound; reflexivity ]. }
  assert (Hb : high (final_mask (final_addlen acc tailLen)) < 2 ^ 63).
  { destruct Wm as [[? ?] [? ?]]. unfold value in Rv.
    unfold U64.modulus in *.
    change (2 ^ 127) with (2 ^ 63 * 2 ^ 64) in Rv.
    change (2 ^ 64) with 18446744073709551616 in *.
    change (2 ^ 63) with 9223372036854775808 in *. lia. }
  pose proof (final_lanes_divmod _ Wm Hb) as E.
  pose proof (final_lanes_In (final_mask (final_addlen acc tailLen)))
    as [IA IB].
  rewrite E in IA, IB |- *. cbn [fst snd] in IA, IB.
  destruct (final_reduce_spec _ _ IA IB) as [R C].
  rewrite <- (Z.mod_small (final_reduce _ _) digest_modulus)
    by (unfold digest_modulus; lia).
  rewrite C, Zmult_mod, !add_257_mod, <- Zmult_mod. reflexivity.
Qed.

(** X10. The digest in closed form.  On every input, with [v] the
    accumulator after the bit length of the tail is added to its high limb
    and the result is reduced modulo [2^127 - 1], the digest is
    [((v / (2^64 - 2^32) + k0) * (v mod (2^64 - 2^32) + k1)) mod (2^64 - 257)],
    [k0] and [k1] being the two final constants. *)
Theorem hash_closed_form (input : list byte) :
  exists acc tailLen v,
    hash_mix input = Some (acc, tailLen)
    /\ v = value (final_mask (final_addlen acc tailLen))
    /\ 0 <= v < 2 ^ 127
    /\ v mod (2 ^ 127 - 1)
       = (value acc + tailLen * 8 * 2 ^ 64) mod (2 ^ 127 - 1)
    /\ hash input
       = Some (((v / lane_divisor + high magicFinal)
                * (v mod lane_divisor + low magicFinal)) mod digest_modulus).
Proof.
  exists (mix_spec input), (Z.of_nat (length input mod 128)).
  eexists. split; [ apply hash_mix_eq | ]. split; [ reflexivity | ].
  destruct (final_addlen_mix_spec input) as (T & S & B). cbv zeta in S, B.
  assert (Wa : wf (final_addlen (mix_spec input)
                     (Z.of_nat (length input mod 128)))) by apply Add_wf.
  pose proof (final_mask_value _ Wa) as V.
  pose proof (wf_value_range _ Wa) as R.
  split; [ | split ].
  - rewrite V.
    destruct (Z.ltb_spec (value (final_addlen (mix_spec input)
                                   (Z.of_nat (length input mod 128))))
                (2 ^ 127 - 1));
      [ lia | apply Z.mod_pos_bound; reflexivity ].
  - rewrite <- S, V.
    destruct (Z.ltb_spec (value (final_addlen (mix_spec input)
                                   (Z.of_nat (length input mod 128))))
                (2 ^ 127 - 1)) as [Hlt | Hge]; [ reflexivity | ].
    match goal with
    | |- ((?x + 1) mod _) mod _ = _ =>
        assert (E : (x + 1) mod 2 ^ 127 = x - (2 ^ 127 - 1));
          [ | rewrite E;
              replace x with (x - (2 ^ 127 - 1) + 1 * (2 ^ 127 - 1)) at 2
                by ring;
              rewrite Z_mod_plus_full; reflexivity ]
    end.
    change (2 ^ 128) with 340282366920938463463374607431768211456 in *.
    change (2 ^ 127) with 170141183460469231731687303715884105728 in *.
    euclid.
  - rewrite hash_eq. f_equal. apply hash_final_closed. apply mix_spec_wf.
Qed.

(** ** Seeded wrappers *)

Lemma byte_val_byte_of (v : Z) : byte_val (byte_of v) = v mod 256.
Proof.
  unfold byte_val, byte_of.
  pose proof (Z.mod_pos_bound v 256 eq_refl) as R.
  destruct (Byte.of_N (Z.to_N (v mod 256))) as [b | ] eqn:E.
  - apply Byte.to_of_N in E. rewrite E. lia.
  - apply Byte.of_N_None_iff in E. lia.
Qed.

Lemma be_bytes_4 (v : Z) :
  be_bytes 4 v
  = [byte_of (v >> 24); byte_of (v >> 16); byte_of (v >> 8); byte_of v].
Proof.
  rewrite !shr_div by lia. unfold be_bytes.
  cbv [seq map Nat.sub].
  change (8 * Z.of_nat 3) with 24. change (8 * Z.of_nat 2) with 16.
  change (8 * Z.of_nat 1) with 8. change (8 * Z.of_nat 0) with 0.
  change (2 ^ 0) with 1. rewrite Z.div_1_r. reflexivity.
Qed.

Lemma be_bytes_8 (v : Z) :
  be_bytes 8 v
  = [byte_of (v >> 56); byte_of (v >> 48); byte_of (v >> 40);
     byte_of (v >> 32); byte_of (v >> 24); byte_of (v >> 16);
     byte_of (v >> 8); byte_of v].
Proof.
  rewrite !shr_div by lia. unfold be_bytes.
  cbv [seq map Nat.sub].
  change (8 * Z.of_nat 7) with 56. change (8 * Z.of_nat 6) with 48.
  change (8 * Z.of_nat 5) with 40. change (8 * Z.of_nat 4) with 32.
  change (8 * Z.of_nat 3) with 24. change (8 * Z.of_nat 2) with 16.
  change (8 * Z.of_nat 1) with 8. change (8 * Z.of_nat 0) with 0.
  change (2 ^ 0) with 1. rewrite Z.div_1_r. reflexivity.
Qed.

Lemma be_value_be_bytes_4 (v : Z) : be_value (be_bytes 4 v) = v mod 2 ^ 32.
Proof.
  rewrite be_bytes_4, !shr_div by lia. unfold be_value. cbn [fold_left].
  rewrite !byte_val_byte_of.
  change (2 ^ 32) with 4294967296. change (2 ^ 24) with 16777216.
  change (2 ^ 16) with 65536. change (2 ^ 8) with 256. euclid.
Qed.

Lemma be_value_be_bytes_8 (v : Z) : be_value (be_bytes 8 v) = v mod 2 ^ 64.
Proof.
  rewrite be_bytes_8, !shr_div by lia. unfold be_value. cbn [fold_left].
  rewrite !byte_val_byte_of.
  change (2 ^ 64) with 18446744073709551616.
  change (2 ^ 56) with 72057594037927936.
  change (2 ^ 48) with 281474976710656. change (2 ^ 40) with 1099511627776.
  change (2 ^ 32) with 4294967296. change (2 ^ 24) with 16777216.
  change (2 ^ 16) with 65536. change (2 ^ 8) with 256. euclid.
Qed.

Lemma make_ok (n : nat) : make (Z.of_nat n) = Some (repeat x00 n).
Proof.
  unfold make. destruct (Z.ltb_spec (Z.of_nat n) 0); [ lia | ].
  rewrite Nat2Z.id. reflexivity.
Qed.

(** Copying [src] behind a prefix of [k] bytes into a buffer made for
    exactly both. *)
Lemma copy_from_prefix (p src : list byte) :
  copy_from (p ++ repeat x00 (length src)) (Z.of_nat (length p)) src
  = Some (p ++ src).
Proof.
  unfold copy_from.
  rewrite slice_from_ok by (unfold len; rewrite length_app; lia).
  cbn [bind]. rewrite Nat2Z.id.
  rewrite firstn_app, firstn_all, Nat.sub_diag, app_nil_r.
  rewrite skipn_app, skipn_all, Nat.sub_diag. cbn [skipn app].
  rewrite copy_make by lia. rewrite Nat.sub_diag, app_nil_r. reflexivity.
Qed.

Lemma Hash64Salt_eq (buffer : list byte) (salt : Z) :
  Hash64Salt buffer salt = hash (be_bytes 4 salt ++ buffer).
Proof.
  unfold Hash64Salt, len.
  replace (Z.of_nat (length buffer) + 4)
    with (Z.of_nat (4 + length buffer)) by lia.
  rewrite make_ok. cbn [bind]. cbn [repeat Nat.add BigEndian_PutUint32 bind].
  pose proof (copy_from_prefix (be_bytes 4 salt) buffer) as C.
  rewrite be_bytes_4 in C at 1 2. cbn [length app] in C.
  change (Z.of_nat 4) with 4 in C. rewrite C. reflexivity.
Qed.

Lemma Hash64Salt64_eq (buffer : list byte) (salt : Z) :
  Hash64Salt64 buffer salt = hash (be_bytes 8 salt ++ buffer).
Proof.
  unfold Hash64Salt64, len.
  replace (Z.of_nat (length buffer) + 8)
    with (Z.of_nat (8 + length buffer)) by lia.
  rewrite make_ok. cbn [bind]. cbn [repeat Nat.add BigEndian_PutUint64 bind].
  pose proof (copy_from_prefix (be_bytes 8 salt) buffer) as C.
  rewrite be_bytes_8 in C at 1 2. cbn [length app] in C.
  change (Z.of_nat 8) with 8 in C. rewrite C. reflexivity.
Qed.

Lemma hash_range (input : list byte) :
  exists d, hash input = Some d /\ 0 <= d <= 0xFFFFFFFFFFFFFEFE.
Proof.
  eexists. split; [ apply hash_eq | ].
  unfold hash_final.
  destruct (final_lanes _) as [A B] eqn:E.
  pose proof (final_lanes_In
                (final_mask (final_addlen (mix_spec input)
                               (Z.of_nat (length input mod 128))))) as [IA IB].
  rewrite E in IA, IB. cbn [fst snd] in IA, IB.
  apply (final_reduce_spec A B IA IB).
Qed.

Lemma lxor_range (x y k : Z) :
  0 < k -> 0 <= x < 2 ^ k -> 0 <= y < 2 ^ k -> 0 <= Z.lxor x y < 2 ^ k.
Proof.
  intros Hk Hx Hy.
  assert (N : 0 <= Z.lxor x y) by (apply Z.lxor_nonneg; lia).
  split; [ exact N | ].
  destruct (Z.eq_dec (Z.lxor x y) 0) as [E | E].
  { rewrite E. apply Z.pow_pos_nonneg; lia. }
  apply Z.log2_lt_pow2; [ lia | ].
  pose proof (Z.log2_lxor x y ltac:(lia) ltac:(lia)) as L.
  assert (Lx : Z.log2 x < k).
  { destruct (Z.eq_dec x 0) as [-> | ]; [ exact Hk | ].
    apply Z.log2_lt_pow2; lia. }
  assert (Ly : Z.log2 y < k).
  { destruct (Z.eq_dec y 0) as [-> | ]; [ exact Hk | ].
    apply Z.log2_lt_pow2; lia. }
  lia.
Qed.

(** X11. [Hash64Salt] hashes the four big-endian bytes of the seed followed
    by the buffer: for a 32-bit seed the message hashed starts with four
    bytes that read back as the seed, and the call returns a digest on every
    buffer. *)
Theorem Hash64Salt_prepends_seed (buffer : list byte) (salt : Z) :
  0 <= salt < 2 ^ 32 ->
  length (be_bytes 4 salt) = 4%nat
  /\ be_value (be_bytes 4 salt) = salt
  /\ Hash64Salt buffer salt = hash (be_bytes 4 salt ++ buffer)
  /\ exists d, Hash64Salt buffer salt = Some d /\ 0 <= d <= 0xFFFFFFFFFFFFFEFE.
Proof.
  intros Hs. split; [ reflexivity | ].
  split; [ rewrite be_value_be_bytes_4; apply Z.mod_small; exact Hs | ].
  split; [ apply Hash64Salt_eq | ].
  rewrite Hash64Salt_eq. apply hash_range.
Qed.

Lemma Hash64Salt_prepends_seed_witness :
  length (be_bytes 4 hashSeed) = 4%nat
  /\ be_value (be_bytes 4 hashSeed) = hashSeed
  /\ Hash64Salt [x74; x65; x73; x74] hashSeed
     = hash (be_bytes 4 hashSeed ++ [x74; x65; x73; x74])
  /\ exists d, Hash64Salt [x74; x65; x73; x74] hashSeed = Some d
               /\ 0 <= d <= 0xFFFFFFFFFFFFFEFE.
Proof.
  apply (Hash64Salt_prepends_seed [x74; x65; x73; x74] hashSeed).
  by_evaluation.
Defined.

(** X12. [Hash64Salt64] hashes the eight big-endian bytes of the seed
    followed by the buffer, and returns a digest on every buffer. *)
Theorem Hash64Salt64_prepends_seed (buffer : list byte) (salt : Z) :
  U64.In salt ->
  length (be_bytes 8 salt) = 8%nat
  /\ be_value (be_bytes 8 salt) = salt
  /\ Hash64Salt64 buffer salt = hash (be_bytes 8 salt ++ buffer)
  /\ exists d, Hash64Salt64 buffer salt = Some d
               /\ 0 <= d <= 0xFFFFFFFFFFFFFEFE.
Proof.
  intros Hs. split; [ reflexivity | ].
  split; [ rewrite be_value_be_bytes_8; apply Z.mod_small; exact Hs | ].
  split; [ apply Hash64Salt64_eq | ].
  rewrite Hash64Salt64_eq. apply hash_range.
Qed.

Lemma Hash64Salt64_prepends_seed_witness :
  let salt := 0x0123456789ABCDEF in
  length (be_bytes 8 salt) = 8%nat
  /\ be_value (be_bytes 8 salt) = salt
  /\ Hash64Salt64 [x01] salt = hash (be_bytes 8 salt ++ [x01])
  /\ exists d, Hash64Salt64 [x01] salt = Some d
               /\ 0 <= d <= 0xFFFFFFFFFFFFFEFE.
Proof.
  apply (Hash64Salt64_prepends_seed [x01] 0x0123456789ABCDEF).
  by_evaluation.
Defined.

Lemma Hash32Salt_fold (buffer : list byte) (salt : Z) :
  exists d64 d32,
    Hash64Salt buffer salt = Some d64
    /\ Hash32Salt buffer salt = Some d32
    /\ d32 = Z.lxor (d64 mod 2 ^ 32) (d64 / 2 ^ 32)
    /\ 0 <= d32 < 2 ^ 32.
Proof.
  destruct (hash_range (be_bytes 4 salt ++ buffer)) as (d & Hd & Rd).
  exists d. eexists. unfold Hash32Salt. rewrite Hash64Salt_eq, Hd.
  cbn [bind]. split; [ reflexivity | ]. split; [ reflexivity | ].
  unfold uint32. rewrite shr_div by lia.
  assert (Q : 0 <= d / 2 ^ 32 < 2 ^ 32).
  { split; [ apply Z.div_pos; lia | apply Z.div_lt_upper_bound; lia ]. }
  rewrite (Z.mod_small (d / 2 ^ 32)) by exact Q.
  split; [ reflexivity | ].
  apply lxor_range; [ lia | apply Z.mod_pos_bound; reflexivity | exact Q ].
Qed.

(** X13. [Hash32Salt] returns on every buffer and seed, and its result is
    the 64-bit digest of [Hash64Salt] folded to 32 bits: the exclusive or of
    the digest's low and high halves, a number below 2^32. *)
Theorem Hash32Salt_folds_digest (buffer : list byte) (salt : Z) :
  exists d64 d32,
    Hash64Salt buffer salt = Some d64
    /\ Hash32Salt buffer salt = Some d32
    /\ d32 = Z.lxor (d64 mod 2 ^ 32) (d64 / 2 ^ 32)
    /\ 0 <= d32 < 2 ^ 32.
Proof. apply Hash32Salt_fold. Qed.

(** X14. [HashRequest] returns on every pair of buffers: the digest of the
    ticket under the default 32-bit seed becomes, as eight big-endian
    bytes, the prefix of the request that is hashed. *)
Theorem HashRequest_chains_seed (authTicket request : list byte) :
  exists seed d,
    hash (be_bytes 4 hashSeed ++ authTicket) = Some seed
    /\ U64.In seed
    /\ be_value (be_bytes 8 seed) = seed
    /\ HashRequest authTicket request = hash (be_bytes 8 seed ++ request)
    /\ HashRequest authTicket request = Some d
    /\ 0 <= d <= 0xFFFFFFFFFFFFFEFE.
Proof.
  destruct (hash_range (be_bytes 4 hashSeed ++ authTicket)) as (seed & Hs & Rs).
  destruct (hash_range (be_bytes 8 seed ++ request)) as (d & Hd & Rd).
  exists seed, d.
  assert (I : U64.In seed) by (unfold U64.In, U64.modulus; lia).
  split; [ exact Hs | ]. split; [ exact I | ].
  split; [ rewrite be_value_be_bytes_8; apply Z.mod_small; exact I | ].
  unfold HashRequest, Hash64. rewrite Hash64Salt_eq, Hs. cbn [bind].
  rewrite Hash64Salt64_eq. split; [ reflexivity | ]. split; assumption.
Qed.

Lemma locationToBuffer_eq (float64 : Type) (Float64bits : float64 -> Z)
    (lat lng alt : float64) :
  locationToBuffer float64 Float64bits lat lng alt
  = Some (be_bytes 8 (Float64bits lat) ++ be_bytes 8 (Float64bits lng)
            ++ be_bytes 8 (Float64bits alt)).
Proof.
  rewrite !be_bytes_8. unfold locationToBuffer.
  generalize (Float64bits lat) (Float64bits lng) (Float64bits alt).
  intros a b c.
  cbv - [byte_of U64.shr]. reflexivity.
Qed.

(** X15. [locationToBuffer] returns 24 bytes: the eight big-endian bytes of
    the bit pattern of the latitude, then of the longitude, then of the
    altitude, each group reading back as its 64-bit pattern.
    [HashLocation2] is [Hash32] of those bytes and [HashLocation1] is
    [Hash32Salt] of them under the 32-bit hash of the ticket; both return a
    number below 2^32 on every input. *)
Theorem location_payload (float64 : Type) (Float64bits : float64 -> Z)
    (authTicket : list byte) (lat lng alt : float64) :
  exists payload seed d1 d2,
    locationToBuffer float64 Float64bits lat lng alt = Some payload
    /\ payload = be_bytes 8 (Float64bits lat) ++ be_bytes 8 (Float64bits lng)
                   ++ be_bytes 8 (Float64bits alt)
    /\ length payload = 24%nat
    /\ be_value (firstn 8 payload) = Float64bits lat mod 2 ^ 64
    /\ be_value (firstn 8 (skipn 8 payload)) = Float64bits lng mod 2 ^ 64
    /\ be_value (skipn 16 payload) = Float64bits alt mod 2 ^ 64
    /\ Hash32 authTicket = Some seed
    /\ HashLocation1 float64 Float64bits authTicket lat lng alt
       = Hash32Salt payload seed
    /\ HashLocation1 float64 Float64bits authTicket lat lng alt = Some d1
    /\ 0 <= d1 < 2 ^ 32
    /\ HashLocation2 float64 Float64bits lat lng alt = Hash32 payload
    /\ HashLocation2 float64 Float64bits lat lng alt = Some d2
    /\ 0 <= d2 < 2 ^ 32.
Proof.
  pose proof (locationToBuffer_eq float64 Float64bits lat lng alt) as E.
  set (payload := be_bytes 8 (Float64bits lat)
                    ++ be_bytes 8 (Float64bits lng)
                    ++ be_bytes 8 (Float64bits alt)) in *.
  destruct (Hash32Salt_fold authTicket hashSeed) as (s64 & seed & _ & Hs & _ & _).
  destruct (Hash32Salt_fold payload seed) as (x1 & d1 & _ & H1 & _ & R1).
  destruct (Hash32Salt_fold payload hashSeed) as (x2 & d2 & _ & H2 & _ & R2).
  exists payload, seed, d1, d2.
  split; [ exact E | ]. split; [ reflexivity | ].
  split; [ reflexivity | ].
  split; [ | split; [ | split ] ].
  - subst payload. rewrite firstn_app. change (length (be_bytes 8 _)) with 8%nat.
    rewrite firstn_all2 by (cbn; lia). rewrite Nat.sub_diag. cbn [firstn].
    rewrite app_nil_r. apply be_value_be_bytes_8.
  - subst payload. rewrite skipn_app. change (length (be_bytes 8 _)) with 8%nat.
    rewrite skipn_all2 by (cbn; lia). rewrite Nat.sub_diag. cbn [skipn app].
    rewrite firstn_app. change (length (be_bytes 8 _)) with 8%nat.
    rewrite firstn_all2 by (cbn; lia). rewrite Nat.sub_diag. cbn [firstn].
    rewrite app_nil_r. apply be_value_be_bytes_8.
  - subst payload. rewrite app_assoc, skipn_app.
    rewrite skipn_all2 by (cbn; lia).
    change (length (be_bytes 8 _ ++ be_bytes 8 _)) with 16%nat.
    rewrite Nat.sub_diag. cbn [skipn app]. apply be_value_be_bytes_8.
  - unfold HashLocation1, HashLocation2, Hash32 in *.
    rewrite Hs, E. cbn [bind]. rewrite H1, H2.
    repeat split; try reflexivity; lia.
Qed.



(** ** Orchestrator *)

Lemma block_at_app (input block : list byte) (i : nat) :
  (128 * (i + 1) <= length input)%nat ->
  block_at (input ++ block) i = block_at input i.
Proof.
  intros H. unfold block_at. rewrite skipn_app, firstn_app.
  rewrite length_skipn.
  replace (128 - (length input - 128 * i))%nat with 0%nat by lia.
  cbn [firstn]. apply app_nil_r.
Qed.

Lemma block_at_last (input block : list byte) (k : nat) :
  length input = (128 * k)%nat -> length block = 128%nat ->
  block_at (input ++ block) k = block.
Proof.
  intros Hi Hb. unfold block_at. rewrite skipn_app.
  rewrite skipn_all2 by lia. rewrite Hi, Nat.sub_diag. cbn [skipn app].
  apply firstn_all2. lia.
Qed.

Lemma fold_combine_block_app (input block : list byte) (l : list nat) :
  (forall i, In i l -> (128 * (i + 1) <= length input)%nat) ->
  forall h,
    fold_left (combine_block (input ++ block)) l h
    = fold_left (combine_block input) l h.
Proof.
  induction l as [ | i l IH]; intros Hl h; [ reflexivity | ].
  cbn [fold_left]. rewrite IH by (intros j Hj; apply Hl; right; exact Hj).
  unfold combine_block at 2 4.
  rewrite block_at_app by (apply Hl; left; reflexivity). reflexivity.
Qed.

Lemma mix_blocks_snoc (input block : list byte) (k : nat) :
  (0 < k)%nat -> length input = (128 * k)%nat -> length block = 128%nat ->
  mix_blocks (input ++ block)
  = hashMulAdd (mix_blocks input) magicRound (absorb block).
Proof.
  intros Hk Hi Hb. unfold mix_blocks. rewrite length_app, Hi, Hb.
  replace ((128 * k + 128) / 128)%nat with (S k)
    by (apply Nat.div_unique with (r := 0%nat); lia).
  replace ((128 * k) / 128)%nat with k
    by (apply Nat.div_unique with (r := 0%nat); lia).
  replace (S k - 1)%nat with ((k - 1) + 1)%nat by lia.
  rewrite seq_app, fold_left_app. cbn [seq fold_left].
  replace (1 + (k - 1))%nat with k by lia.
  rewrite block_at_app by lia.
  rewrite fold_combine_block_app
    by (intros i Hin; apply in_seq in Hin; lia).
  unfold combine_block at 1. rewrite (block_at_last input block k Hi Hb).
  reflexivity.
Qed.

(** X17. Full blocks are absorbed one at a time, left to right: when the
    input is a positive whole number of 128-byte blocks, appending one more
    128-byte block takes the accumulator [acc] to
    [hashMulAdd acc magicRound (hashBlock block)]. *)
Theorem hash_mix_appends_block (input block : list byte) :
  (0 < length input)%nat -> (length input mod 128 = 0)%nat ->
  length block = 128%nat ->
  exists acc b,
    hash_mix input = Some (acc, 0)
    /\ hashBlock block = Some b
    /\ hash_mix (input ++ block) = Some (hashMulAdd acc magicRound b, 0).
Proof.
  intros Hpos Hm Hb.
  pose proof (Nat.div_mod_eq (length input) 128) as Hd.
  set (k := (length input / 128)%nat) in *.
  assert (Hi : length input = (128 * k)%nat) by lia.
  assert (Hk : (0 < k)%nat) by lia.
  exists (mix_blocks input), (absorb block).
  assert (S1 : mix_spec input = mix_blocks input).
  { unfold mix_spec. rewrite Hm. fold k.
    destruct (Nat.ltb_spec 0 k); [ reflexivity | lia ]. }
  assert (M2 : (length (input ++ block) mod 128 = 0)%nat).
  { rewrite length_app, Hi, Hb.
    replace (128 * k + 128)%nat with ((k + 1) * 128)%nat by lia.
    apply Nat.Div0.mod_mul. }
  assert (S2 : mix_spec (input ++ block) = mix_blocks (input ++ block)).
  { unfold mix_spec. rewrite M2.
    pose proof (Nat.div_mod_eq (length (input ++ block)) 128) as Hd2.
    rewrite M2 in Hd2. rewrite length_app in Hd2 |- *.
    destruct (Nat.ltb_spec 0 ((length input + length block) / 128));
      [ reflexivity | lia ]. }
  split; [ rewrite hash_mix_eq, S1, Hm; reflexivity | ].
  split; [ apply hashBlock_absorb; rewrite Hb; (reflexivity || lia) | ].
  rewrite hash_mix_eq, S2, M2, (mix_blocks_snoc input block k Hk Hi Hb).
  reflexivity.
Qed.

Lemma hash_mix_appends_block_witness :
  exists acc b,
    hash_mix (repeat x01 128) = Some (acc, 0)
    /\ hashBlock (repeat x02 128) = Some b
    /\ hash_mix (repeat x01 128 ++ repeat x02 128)
       = Some (hashMulAdd acc magicRound b, 0).
Proof.
  apply (hash_mix_appends_block (repeat x01 128) (repeat x02 128));
    rewrite repeat_length; first [ lia | reflexivity ].
Defined.

(** X18. On an input shorter than one block the accumulator is the absorbed
    zero-padded input plus the round constant, with no wrap: its number is
    [absorb_value] of the input padded with zeroes to a multiple of 16,
    plus the number of [magicRound]. *)
Theorem hash_mix_short_input (input : list byte) :
  (length input < 128)%nat ->
  let padded :=
    input ++ repeat x00 (16 * ceil_div (length input) 16 - length input) in
  exists acc,
    hash_mix input = Some (acc, Z.of_nat (length input))
    /\ hashBlock padded = Some (absorb padded)
    /\ acc = Add (absorb padded) magicRound
    /\ value acc = absorb_value padded + value magicRound.
Proof.
  intros Hl. cbv zeta.
  assert (Hm : (length input mod 128 = length input)%nat)
    by (apply Nat.mod_small; exact Hl).
  assert (Hq : (length input / 128 = 0)%nat)
    by (apply Nat.div_small; exact Hl).
  assert (P : paddedTail input
              = input ++ repeat x00
                  (16 * ceil_div (length input) 16 - length input)).
  { unfold paddedTail. rewrite Hm, Nat.sub_diag. reflexivity. }
  eexists. split; [ rewrite hash_mix_eq, Hm; reflexivity | ].
  rewrite <- P. split; [ apply hashBlock_paddedTail | ].
  assert (S : mix_spec input = Add (absorb (paddedTail input)) magicRound).
  { unfold mix_spec. rewrite Hq. reflexivity. }
  split; [ exact S | ]. rewrite S. apply Add_magicRound_value.
Qed.

Lemma hash_mix_short_input_witness :
  let input := [x74; x65; x73; x74] in
  let padded :=
    input ++ repeat x00 (16 * ceil_div (length input) 16 - length input) in
  exists acc,
    hash_mix input = Some (acc, Z.of_nat (length input))
    /\ hashBlock padded = Some (absorb padded)
    /\ acc = Add (absorb padded) magicRound
    /\ value acc = absorb_value padded + value magicRound.
Proof.
  apply (hash_mix_short_input [x74; x65; x73; x74]). cbn [length]. lia.
Defined.
